(** * my-coding-agent: the confirmation gate, the dispatcher and the chat loop

    A shallow embedding of [src/index.ts], [src/tools/filesystem.ts] and
    [src/tools/shell.ts].

    - JavaScript strings are Rocq strings: sequences of code units below 256
      (the Latin-1 range), on which the string methods below are exact.
    - A value of type [any] (tool arguments) is a [JValue].
    - Node's [fs], [path], [child_process] and [readline], and the remote
      model, are the environment: a [World] holds the disk, the lines the
      user is going to type, the responses the remote model is going to give
      and the trace of what the process did.
    - The program runs one thing at a time: every promise is awaited, or
      settled by a callback, before the next statement runs. It is written in
      a state monad with exceptions, in which a computation may also never
      resume. *)

From Stdlib Require Import String Ascii ZArith List Lia Bool.
From stdpp Require Import base option list strings gmap.

Open Scope string_scope.
Set Warnings "-register-all".

(** ** JavaScript strings *)

Module Js.

Definition dq : string := String (ascii_of_nat 34) "".
Definition nl : string := String (ascii_of_nat 10) "".

(** [String.prototype.toLowerCase] on one code unit below 256: [A-Z] and
    the upper-case letters of Latin-1 (U+00C0..U+00DE but the
    multiplication sign U+00D7) move 32 up. *)
Definition lowerChar (c : ascii) : ascii :=
  let n := nat_of_ascii c in
  if (((65 <=? n) && (n <=? 90)) || ((192 <=? n) && (n <=? 222) && negb (n =? 215)))%nat
  then ascii_of_nat (n + 32)
  else c.

Fixpoint toLowerCase (s : string) : string :=
  match s with
  | "" => ""
  | String c r => String (lowerChar c) (toLowerCase r)
  end.

(** [s.slice(0, n)] *)
Definition slice0 (n : nat) (s : string) : string := substring 0 n s.

(** [s.startsWith(p)] *)
Definition startsWith (s p : string) : bool := String.prefix p s.

(** [s.includes(p)] *)
Fixpoint includes (s p : string) : bool :=
  String.prefix p s ||
  match s with
  | "" => false
  | String _ r => includes r p
  end.

Fixpoint dropChars (n : nat) (s : string) : string :=
  match n, s with
  | S k, String _ r => dropChars k r
  | _, _ => s
  end.

(** [s.replace(pat, rep)] with a string pattern: the first occurrence only.
    [rep] is taken literally (the program only passes the empty string). *)
Fixpoint replace (s pat rep : string) : string :=
  if String.prefix pat s then rep ++ dropChars (String.length pat) s
  else match s with
       | "" => ""
       | String c r => String c (replace r pat rep)
       end.

(** White space and line terminators below 256: TAB, LF, VT, FF, CR, SP and
    NBSP. *)
Definition isWhiteSpace (c : ascii) : bool :=
  let n := nat_of_ascii c in
  (((9 <=? n) && (n <=? 13)) || (n =? 32) || (n =? 160))%nat.

Fixpoint trimStart (s : string) : string :=
  match s with
  | "" => ""
  | String c r => if isWhiteSpace c then trimStart r else s
  end.

Fixpoint trimEnd (s : string) : string :=
  match s with
  | "" => ""
  | String c r =>
      match trimEnd r with
      | "" => if isWhiteSpace c then "" else String c ""
      | r' => String c r'
      end
  end.

(** [s.trim()] *)
Definition trim (s : string) : string := trimEnd (trimStart s).

(** [xs.join(sep)] on an array of strings *)
Definition join (sep : string) (xs : list string) : string := String.concat sep xs.

(** Truthiness of a string: non-empty. *)
Definition truthy (s : string) : bool := negb (String.eqb s "").

End Js.

(** ** Values of type [any] and thrown errors *)

(** The values [JSON.parse] produces, and [undefined] (what reading a missing
    property gives). A number is kept as the text [String(n)] renders. *)
Inductive JValue : Type :=
| JUndefined
| JNull
| JBool (b : bool)
| JNum (rendered : string)
| JStr (s : string)
| JArr (items : list JValue)
| JObj (props : list (string * JValue)).

(** A thrown [Error] object. Everything this program and the Node functions it
    calls throw is an [Error] instance. *)
Record JsError : Type := mkError { ename : string; message : string }.

Definition TypeError (msg : string) : JsError := mkError "TypeError" msg.
Definition SyntaxError (msg : string) : JsError := mkError "SyntaxError" msg.

(** Own property lookup in an object literal. *)
Fixpoint ownProp (props : list (string * JValue)) (key : string) : option JValue :=
  match props with
  | [] => None
  | (k, v) :: rest => if String.eqb k key then Some v else ownProp rest key
  end.

(** [v.key] for a key that no prototype defines ([path], [content],
    [directory], [command]): [null] and [undefined] throw, an object gives its
    own property, every other value gives [undefined]. *)
Definition getProp (v : JValue) (key : string) : JsError + JValue :=
  match v with
  | JUndefined =>
      inl (TypeError ("Cannot read properties of undefined (reading '" ++ key ++ "')"))
  | JNull =>
      inl (TypeError ("Cannot read properties of null (reading '" ++ key ++ "')"))
  | JObj props => inr (default JUndefined (ownProp props key))
  | _ => inr JUndefined
  end.

(** [ToString], as a template literal applies it. An array joins its elements
    with a comma, [null] and [undefined] elements being empty; an object is
    [[object Object]] unless an own (hence not callable) [toString] property
    hides the inherited method, which makes the conversion throw. *)
Fixpoint toString (v : JValue) : JsError + string :=
  match v with
  | JUndefined => inr "undefined"
  | JNull => inr "null"
  | JBool true => inr "true"
  | JBool false => inr "false"
  | JNum rendered => inr rendered
  | JStr s => inr s
  | JArr items =>
      let fix each (l : list JValue) : JsError + list string :=
        match l with
        | [] => inr []
        | x :: rest =>
            match (match x with
                   | JUndefined | JNull => inr ""
                   | _ => toString x
                   end) with
            | inl e => inl e
            | inr s =>
                match each rest with
                | inl e => inl e
                | inr ss => inr (s :: ss)
                end
            end
        end in
      match each items with
      | inl e => inl e
      | inr ss => inr (Js.join "," ss)
      end
  | JObj props =>
      match ownProp props "toString" with
      | Some _ => inl (TypeError "Cannot convert object to primitive value")
      | None => inr "[object Object]"
      end
  end.

(** How Node names a value in an [ERR_INVALID_ARG_TYPE] message. *)
Definition received (v : JValue) : string :=
  match v with
  | JUndefined => "undefined"
  | JNull => "null"
  | JBool true => "type boolean (true)"
  | JBool false => "type boolean (false)"
  | JNum rendered => "type number (" ++ rendered ++ ")"
  | JStr s => "type string ('" ++ s ++ "')"
  | JArr _ => "an instance of Array"
  | JObj _ => "an instance of Object"
  end.

Definition invalidArgType (argument expected : string) (v : JValue) : JsError :=
  TypeError ("The " ++ Js.dq ++ argument ++ Js.dq ++ " argument must be " ++ expected
             ++ ". Received " ++ received v).

(** ** Tool results, conversation turns, stream chunks *)

(** The objects the executors, the gate and the dispatcher return. *)
Inductive ToolResult : Type :=
| Content (content : string)            (* { content } *)
| Written (message : string)            (* { success: true, message } *)
| Files (files : list string)           (* { files } *)
| Output (output : string)              (* { output } *)
| Failed (error : string)               (* { error } *)
| Cancelled (message : string).         (* { cancelled: true, message } *)

Inductive Role : Type := system | user | model | function.

(** The text of a turn: plain text, or [JSON.stringify(result)], kept as the
    result it serialises. *)
Inductive Body : Type :=
| Plain (text : string)
| Json (result : ToolResult).

Record Turn : Type := mkTurn { role : Role; parts : Body }.

(** [toolCall.args], the JSON text of the arguments, kept as what
    [JSON.parse] makes of it: the value it denotes, or the [SyntaxError]
    message when it is not JSON. *)
Inductive JsonText : Type :=
| Denotes (v : JValue)
| Malformed (why : string).

Record ToolCall : Type := mkToolCall { name : string; args : JsonText }.

(** One chunk of the stream: [chunk.text()] and [chunk.functionCalls()]
    ([None] when the method is missing or returns [undefined]). *)
Record Chunk : Type := mkChunk { text : string; functionCalls : option (list ToolCall) }.

(** What one [generateContentStream] request brings: a rejection, or a stream
    of chunks that ends normally or by throwing. *)
Inductive Response : Type :=
| Rejected (e : JsError)
| Streamed (chunks : list Chunk) (failure : option JsError).

(** ** The environment *)

(** The disk maps absolute paths to regular files and directories. It is a
    flat store: the chain of ancestors of a path and the permissions are not
    tracked, and a file holds the string written to it. *)
Inductive Node : Type :=
| File (data : string)
| Directory.

(** What the program takes from Node's [path] module (for the working
    directory of the process) and from the shell behind [execSync]: the
    command either fails with an error or prints [stdout], and may change the
    disk. *)
Class Platform : Type := {
  path_resolve : string -> string;
  path_dirname : string -> string;
  path_basename : string -> string;
  shell : string -> gmap string Node -> (JsError + string) * gmap string Node
}.

Inductive Syscall : Type :=
| ReadFile (path : string)
| EnsureDir (path : string)
| WriteFile (path data : string)
| Readdir (path : string)
| ExecSync (command : string).

(** One argument of [console.log] or [console.error]: a string, a result
    pretty-printed by [JSON.stringify(r, null, 2)], or an error object. *)
Inductive Shown : Type :=
| Str (s : string)
| Pretty (r : ToolResult)
| Thrown (e : JsError).

(** The trace records what the process prints, asks, sends and does to the
    machine. [Dispatch], [Enter] and [Push] are marks of the embedding: they
    record that control reached [executeTool], the body of an executor, or
    [chatHistory.push], and nothing in the program reads them. *)
Inductive Event : Type :=
| Log (line : list Shown)                    (* console.log *)
| LogError (line : list Shown)               (* console.error *)
| Stdout (chars : string)                    (* process.stdout.write *)
| Question (query : string)                  (* rl.question shows its query *)
| Close                                      (* rl.close() *)
| Request (contents : list Turn)             (* model.generateContentStream *)
| Dispatch (toolName : string) (args : JValue) (* executeTool is entered *)
| Enter (executor : string) (args : JValue)  (* a tool executor is entered *)
| Sys (call : Syscall)                       (* a file or process call is made *)
| Push (turn : Turn)                         (* chatHistory.push *)
| Exit (code : Z).                           (* process.exit *)

Record World : Type := mkWorld {
  disk : gmap string Node;
  stdin : list string;          (* the lines the user is going to type *)
  remote : list Response;       (* what the coming requests are going to bring *)
  chatHistory : list Turn;
  trace : list Event            (* what happened so far, oldest first *)
}.

(** ** Computations *)

(** A computation returns, throws, or never resumes ([Halt]: the process
    exited, or it waits for input that never comes). *)
Inductive Outcome (A : Type) : Type :=
| Ret (a : A)
| Throw (e : JsError)
| Halt.

Arguments Ret {A} a.
Arguments Throw {A} e.
Arguments Halt {A}.

Definition M (A : Type) : Type := World -> Outcome A * World.

Definition ret {A} (a : A) : M A := fun w => (Ret a, w).

Definition throw {A} (e : JsError) : M A := fun w => (Throw e, w).

Definition halt {A} : M A := fun w => (Halt, w).

Definition bind {A B} (m : M A) (k : A -> M B) : M B :=
  fun w =>
    match m w with
    | (Ret a, w') => k a w'
    | (Throw e, w') => (Throw e, w')
    | (Halt, w') => (Halt, w')
    end.

(** [try { m } catch (error) { handler error }] *)
Definition tryCatch {A} (m : M A) (handler : JsError -> M A) : M A :=
  fun w =>
    match m w with
    | (Throw e, w') => handler e w'
    | r => r
    end.

(** The body of an [async] callback that nobody awaits: what it throws is an
    unhandled rejection, and the code waiting for the callback to call
    [resolve] or to ask the next question never resumes. *)
Definition unawaited {A} (m : M A) : M A :=
  fun w =>
    match m w with
    | (Throw e, w') => (Halt, w')
    | r => r
    end.

Declare Scope agent_scope.
Delimit Scope agent_scope with agent.
Notation "x <- m ;; k" := (bind m (fun x => k))
  (at level 100, m at next level, right associativity) : agent_scope.
Notation "m ;; k" := (bind m (fun _ => k))
  (at level 100, right associativity) : agent_scope.
Open Scope agent_scope.

(** Lift a pure step that may throw. *)
Definition lift {A} (r : JsError + A) : M A :=
  match r with
  | inl e => throw e
  | inr a => ret a
  end.

Definition emit (e : Event) : M unit :=
  fun w => (Ret tt, mkWorld (disk w) (stdin w) (remote w) (chatHistory w) (trace w ++ [e])).

Definition setDisk (d : gmap string Node) : M unit :=
  fun w => (Ret tt, mkWorld d (stdin w) (remote w) (chatHistory w) (trace w)).

Definition getDisk : M (gmap string Node) := fun w => (Ret (disk w), w).

Definition getHistory : M (list Turn) := fun w => (Ret (chatHistory w), w).

Definition setHistory (h : list Turn) : M unit :=
  fun w => (Ret tt, mkWorld (disk w) (stdin w) (remote w) h (trace w)).

(** [chatHistory.push(turn)] *)
Definition push (t : Turn) : M unit :=
  emit (Push t) ;;
  h <- getHistory ;;
  setHistory (h ++ [t]).

Definition log (line : list Shown) : M unit := emit (Log line).
Definition logError (line : list Shown) : M unit := emit (LogError line).
Definition stdoutWrite (chars : string) : M unit := emit (Stdout chars).

(** The next line of the terminal; at the end of the input the reader waits
    for ever. *)
Definition readLine : M string :=
  fun w =>
    match stdin w with
    | [] => (Halt, w)
    | answer :: rest =>
        (Ret answer, mkWorld (disk w) rest (remote w) (chatHistory w) (trace w))
    end.

(** [rl.question(query, callback)]: the query is shown and the callback gets
    the next line. *)
Definition question (query : string) : M string :=
  emit (Question query) ;;
  readLine.

Definition rlClose : M unit := emit Close.

(** [process.exit(code)] does not return. *)
Definition exit {A} (code : Z) : M A := emit (Exit code) ;; halt.

(** The response to the request just sent; a request that nothing answers
    stays pending. *)
Definition awaitResponse : M Response :=
  fun w =>
    match remote w with
    | [] => (Halt, w)
    | r :: rest =>
        (Ret r, mkWorld (disk w) (stdin w) rest (chatHistory w) (trace w))
    end.

(** [model.generateContentStream({ contents, generationConfig })] *)
Definition generateContentStream (contents : list Turn) : M Response :=
  emit (Request contents) ;;
  awaitResponse.

(** ** Node's [path], [fs] and [child_process] *)

Definition SystemError (msg : string) : JsError := mkError "Error" msg.

(** [path.resolve(p)] *)
Definition resolve `{Platform} (p : JValue) : M string :=
  match p with
  | JStr s => ret (path_resolve s)
  | _ => throw (invalidArgType "paths[0]" "of type string" p)
  end.

(** [fs.readFile(filePath, 'utf-8')] *)
Definition fs_readFile (filePath : string) : M string :=
  emit (Sys (ReadFile filePath)) ;;
  d <- getDisk ;;
  match d !! filePath with
  | Some (File data) => ret data
  | Some Directory =>
      throw (SystemError "EISDIR: illegal operation on a directory, read")
  | None =>
      throw (SystemError ("ENOENT: no such file or directory, open '" ++ filePath ++ "'"))
  end.

(** [fs.ensureDir(dir)] *)
Definition fs_ensureDir (dir : string) : M unit :=
  emit (Sys (EnsureDir dir)) ;;
  d <- getDisk ;;
  match d !! dir with
  | Some Directory => ret tt
  | Some (File _) =>
      throw (SystemError ("EEXIST: file already exists, mkdir '" ++ dir ++ "'"))
  | None => setDisk (<[dir := Directory]> d)
  end.

(** [fs.writeFile(filePath, data)]: data that is not a string is refused
    before the file is opened. *)
Definition fs_writeFile (filePath : string) (data : JValue) : M unit :=
  match data with
  | JStr s =>
      emit (Sys (WriteFile filePath s)) ;;
      d <- getDisk ;;
      match d !! filePath with
      | Some Directory =>
          throw (SystemError
                   ("EISDIR: illegal operation on a directory, open '" ++ filePath ++ "'"))
      | _ => setDisk (<[filePath := File s]> d)
      end
  | _ =>
      throw (invalidArgType "data"
               "of type string or an instance of Buffer, TypedArray, or DataView" data)
  end.

(** [fs.readdir(dirPath)]: the names of the entries whose parent is
    [dirPath]. *)
Definition fs_readdir `{Platform} (dirPath : string) : M (list string) :=
  emit (Sys (Readdir dirPath)) ;;
  d <- getDisk ;;
  match d !! dirPath with
  | Some Directory =>
      ret (path_basename <$>
             filter (fun p => path_dirname p = dirPath /\ p <> dirPath)
                    (elements (dom d)))
  | Some (File _) =>
      throw (SystemError ("ENOTDIR: not a directory, scandir '" ++ dirPath ++ "'"))
  | None =>
      throw (SystemError ("ENOENT: no such file or directory, scandir '" ++ dirPath ++ "'"))
  end.

(** [execSync(command, { encoding: 'utf-8' })] *)
Definition execSync `{Platform} (command : JValue) : M string :=
  match command with
  | JStr c =>
      emit (Sys (ExecSync c)) ;;
      d <- getDisk ;;
      let (r, d') := shell c d in
      setDisk d' ;;
      lift r
  | _ => throw (invalidArgType "command" "of type string" command)
  end.

(** ** src/tools/filesystem.ts *)

(** Each executor is one [try] block and its [catch]; the block comes first,
    under the name of the executor with [_try]. *)

Definition readFile_try `{Platform} (args : JValue) : M ToolResult :=
  p <- lift (getProp args "path") ;;
  filePath <- resolve p ;;
  content <- fs_readFile filePath ;;
  ret (Content content).

Definition readFile `{Platform} (args : JValue) : M ToolResult :=
  emit (Enter "readFile" args) ;;
  tryCatch
    (readFile_try args)
    (fun error => ret (Failed ("Failed to read file: " ++ message error))).

Definition writeFile_try `{Platform} (args : JValue) : M ToolResult :=
  p <- lift (getProp args "path") ;;
  filePath <- resolve p ;;
  fs_ensureDir (path_dirname filePath) ;;
  content <- lift (getProp args "content") ;;
  fs_writeFile filePath content ;;
  p' <- lift (getProp args "path") ;;
  shown <- lift (toString p') ;;
  ret (Written ("Successfully wrote to " ++ shown)).

Definition writeFile `{Platform} (args : JValue) : M ToolResult :=
  emit (Enter "writeFile" args) ;;
  tryCatch
    (writeFile_try args)
    (fun error => ret (Failed ("Failed to write file: " ++ message error))).

Definition listFiles_try `{Platform} (args : JValue) : M ToolResult :=
  d <- lift (getProp args "directory") ;;
  dirPath <- resolve d ;;
  files <- fs_readdir dirPath ;;
  ret (Files files).

Definition listFiles `{Platform} (args : JValue) : M ToolResult :=
  emit (Enter "listFiles" args) ;;
  tryCatch
    (listFiles_try args)
    (fun error => ret (Failed ("Failed to list files: " ++ message error))).

(** ** src/tools/shell.ts *)

Definition executeCommand_try `{Platform} (args : JValue) : M ToolResult :=
  command <- lift (getProp args "command") ;;
  output <- execSync command ;;
  ret (Output output).

Definition executeCommand `{Platform} (args : JValue) : M ToolResult :=
  emit (Enter "executeCommand" args) ;;
  tryCatch
    (executeCommand_try args)
    (fun error =>
       (* error instanceof Error ? error.message : String(error) *)
       let errorMessage := message error in
       ret (Failed ("Command execution failed: " ++ errorMessage))).

(** ** src/index.ts *)

Definition systemPrompt : string :=
"
You are a coding assistant that can help users write code, fix bugs, and understand programming concepts.
You have access to the following tools:

1. readFile - Read content from a file
2. writeFile - Write content to a file (requires user confirmation)
3. listFiles - List files in a directory
4. executeCommand - Execute shell commands (requires user confirmation)

For any file or command operations that modify the system, you should:
1. Explain what you're going to do
2. Ask for confirmation before proceeding
3. Execute the operation only after receiving confirmation

Think step by step when solving problems, and consider best practices for the programming language in use.
".

(** The two substitutions of the preview line:
    [args.content.slice(0, 100)] then [args.content.length > 100 ? '...' : '']. *)
Definition contentPreview (content : JValue) : JsError + string :=
  match content with
  | JStr s =>
      inr (Js.slice0 100 s ++ (if (100 <? String.length s)%nat then "..." else ""))
  | JArr items =>
      match toString (JArr (take 100 items)) with
      | inl e => inl e
      | inr shown => inr (shown ++ (if (100 <? length items)%nat then "..." else ""))
      end
  | JUndefined => inl (TypeError "Cannot read properties of undefined (reading 'slice')")
  | JNull => inl (TypeError "Cannot read properties of null (reading 'slice')")
  | _ => inl (TypeError "args.content.slice is not a function")
  end.

Record Tool : Type := mkTool {
  tool_name : string;
  description : string;
  execute : JValue -> M ToolResult
}.

(** [tools[1].execute]: the gate in front of [writeFile]. *)
Definition confirmWriteFile `{Platform} (args : JValue) : M ToolResult :=
  p <- lift (getProp args "path") ;;
  shown <- lift (toString p) ;;
  log [Str (Js.nl ++ "I want to write to file: " ++ shown)] ;;
  content <- lift (getProp args "content") ;;
  preview <- lift (contentPreview content) ;;
  log [Str ("Content preview: " ++ preview)] ;;
  answer <- question "Do you want to proceed? (yes/no): " ;;
  unawaited
    (if String.eqb (Js.toLowerCase answer) "yes" || String.eqb (Js.toLowerCase answer) "y"
     then (result <- writeFile args ;; ret result)
     else ret (Cancelled "File write operation cancelled by user")).

(** [tools[3].execute]: the gate in front of [executeCommand]. *)
Definition confirmExecuteCommand `{Platform} (args : JValue) : M ToolResult :=
  c <- lift (getProp args "command") ;;
  shown <- lift (toString c) ;;
  log [Str (Js.nl ++ "I want to execute command: " ++ shown)] ;;
  answer <- question "Do you want to proceed? (yes/no): " ;;
  unawaited
    (if String.eqb (Js.toLowerCase answer) "yes" || String.eqb (Js.toLowerCase answer) "y"
     then (result <- executeCommand args ;; ret result)
     else ret (Cancelled "Command execution cancelled by user")).

Definition tools `{Platform} : list Tool :=
  [ mkTool "readFile" "Read content from a file" readFile;
    mkTool "writeFile" "Write content to a file (requires user confirmation)"
      confirmWriteFile;
    mkTool "listFiles" "List files in a directory" listFiles;
    mkTool "executeCommand" "Execute shell commands (requires user confirmation)"
      confirmExecuteCommand ].

Definition executeTool `{Platform} (toolName : string) (args : JValue) : M ToolResult :=
  emit (Dispatch toolName args) ;;
  match find (fun t => String.eqb (tool_name t) toolName) tools with
  | None => ret (Failed ("Tool " ++ toolName ++ " not found"))
  | Some tool =>
      tryCatch
        (execute tool args)
        (fun error =>
           ret (Failed ("Failed to execute tool " ++ toolName ++ ": " ++ message error)))
  end.

(** [JSON.parse(toolCall.args)] *)
Definition JSON_parse (t : JsonText) : M JValue :=
  match t with
  | Denotes v => ret v
  | Malformed why => throw (SyntaxError why)
  end.

(** The [for await (const chunk of result.stream)] loop, with its two
    variables. *)
Fixpoint consumeStream (chunks : list Chunk) (failure : option JsError)
    (aiResponse : string) (toolCalls : list ToolCall) : M (string * list ToolCall) :=
  match chunks with
  | [] =>
      match failure with
      | Some e => throw e
      | None => ret (aiResponse, toolCalls)
      end
  | chunk :: rest =>
      let content := text chunk in
      aiResponse' <- (if Js.truthy content
                      then (stdoutWrite content ;; ret (aiResponse ++ content))
                      else ret aiResponse) ;;
      let toolCalls' :=
        match functionCalls chunk with
        | Some chunkFunctionCalls =>
            if (0 <? length chunkFunctionCalls)%nat then chunkFunctionCalls else toolCalls
        | None => toolCalls
        end in
      consumeStream rest failure aiResponse' toolCalls'
  end.

(** The [for (const toolCall of toolCalls)] loop. *)
Fixpoint dispatchAll `{Platform} (toolCalls : list ToolCall) : M unit :=
  match toolCalls with
  | [] => ret tt
  | toolCall :: rest =>
      let toolName := name toolCall in
      args <- JSON_parse (args toolCall) ;;
      log [Str (Js.nl ++ "Executing tool: " ++ toolName)] ;;
      result <- executeTool toolName args ;;
      log [Str "Tool result:"; Pretty result] ;;
      push (mkTurn function (Json result)) ;;
      dispatchAll rest
  end.

Definition processUserInput `{Platform} (userInput : string) : M bool :=
  if String.eqb (Js.toLowerCase userInput) "exit" then
    log [Str "Goodbye!"] ;;
    rlClose ;;
    ret false
  else
    push (mkTurn user (Plain userInput)) ;;
    tryCatch
      (contents <- getHistory ;;
       result <- generateContentStream contents ;;
       match result with
       | Rejected e => throw e
       | Streamed chunks failure =>
           log [Str (Js.nl ++ "Assistant: ")] ;;
           r <- consumeStream chunks failure "" [] ;;
           let (aiResponse, toolCalls) := r in
           log [Str Js.nl] ;;
           push (mkTurn model (Plain aiResponse)) ;;
           (if (0 <? length toolCalls)%nat
            then (log [Str (Js.nl ++ "Executing tool calls...")] ;;
                  dispatchAll toolCalls)
            else ret tt) ;;
           ret true
       end)
      (fun error =>
         logError [Str "Error:"; Thrown error] ;;
         ret true).

(** [askQuestion]: each round reads one line, so [fuel] above the number of
    lines left is never used up. *)
Fixpoint askQuestion `{Platform} (fuel : nat) : M unit :=
  match fuel with
  | O => halt
  | S fuel' =>
      userInput <- question (Js.nl ++ "You: ") ;;
      unawaited
        (shouldContinue <- processUserInput userInput ;;
         if shouldContinue then askQuestion fuel' else ret tt)
  end.

Definition startChat `{Platform} (initialMessage : option string) : M unit :=
  log [Str ("Coding Assistant initialized. Type " ++ Js.dq ++ "exit" ++ Js.dq ++ " to quit.")] ;;
  setHistory [mkTurn system (Plain systemPrompt)] ;;
  shouldContinue <-
    match initialMessage with
    | Some m =>
        if Js.truthy m
        then (log [Str (Js.nl ++ "You: " ++ m)] ;; processUserInput m)
        else ret true
    | None => ret true
    end ;;
  if shouldContinue
  then (fun w => askQuestion (S (length (stdin w))) w)
  else ret tt.

(** Lines 210-238: the initial message and the direct file creation. *)
Definition cli `{Platform} (argv : list string) : M unit :=
  let initialMessage := Js.join " " argv in
  if Js.startsWith initialMessage "create " && Js.includes initialMessage ".txt" then
    let filename := Js.trim (Js.replace initialMessage "create " "") in
    log [Str ("Creating file: " ++ filename)] ;;
    let writeArgs := JObj [("path", JStr filename); ("content", JStr "")] in
    tryCatch
      (result <- writeFile writeArgs ;;
       log [Str "File creation result:"; Pretty result] ;;
       exit 0)
      (fun error =>
         logError [Str "Error creating file:"; Thrown error] ;;
         exit 1)
  else
    startChat (if Js.truthy initialMessage then Some initialMessage else None).

(** The whole module: the credential check of lines 11-15, then [cli]. *)
Definition main `{Platform} (GOOGLE_API_KEY : option string) (argv : list string) : M unit :=
  match GOOGLE_API_KEY with
  | Some apiKey =>
      if Js.truthy apiKey then cli argv
      else (logError [Str "Missing GOOGLE_API_KEY in .env file"] ;; exit 1)
  | None => logError [Str "Missing GOOGLE_API_KEY in .env file"] ;; exit 1
  end.

(** ** A platform to run the program on

    POSIX paths, the working directory [/work], paths without [.] and [..]
    segments, and a shell in which every command prints nothing and leaves
    the disk alone. *)

Fixpoint posix_basename (s : string) : string :=
  match s with
  | "" => ""
  | String c r =>
      if Js.includes r "/" then posix_basename r
      else if Ascii.eqb c "/" then r else s
  end.

Definition posix_dirname (s : string) : string :=
  match (String.length s - String.length (posix_basename s) - 1)%nat with
  | O => "/"
  | n => Js.slice0 n s
  end.

Definition posix_resolve (p : string) : string :=
  if Js.startsWith p "/" then p else "/work/" ++ p.

Definition quietShell (command : string) (d : gmap string Node) :
    (JsError + string) * gmap string Node :=
  (inr "", d).

Definition posix : Platform :=
  {| path_resolve := posix_resolve;
     path_dirname := posix_dirname;
     path_basename := posix_basename;
     shell := quietShell |}.

(** A fresh process: nothing on the disk, nothing said yet. *)
Definition boot (lines : list string) (responses : list Response) : World :=
  mkWorld ∅ lines responses [] [].

(** * The vocabulary of the properties *)

(** From here on [++] joins lists; strings are joined by [+:+]. *)
Open Scope list_scope.

(** ** Worlds *)

(** A world after more events, and a world with other lines to read. *)
Definition after (w : World) (evs : list Event) : World :=
  mkWorld (disk w) (stdin w) (remote w) (chatHistory w) (trace w ++ evs).

Definition typing (lines : list string) (w : World) : World :=
  mkWorld (disk w) lines (remote w) (chatHistory w) (trace w).

(** The world in which the [try] block of an executor starts. *)
Definition entered (executor : string) (args : JValue) (w : World) : World :=
  snd (emit (Enter executor args) w).

(** The world in which the dispatcher looks the tool up. *)
Definition dispatched (toolName : string) (args : JValue) (w : World) : World :=
  snd (emit (Dispatch toolName args) w).

(** ** What a computation leaves alone *)

(** A computation only adds to the trace. *)
Definition Appends {A} (m : M A) : Prop :=
  forall w, exists evs, trace (snd (m w)) = trace w ++ evs.

(** Events of the tools: console output, executor entries, system calls. *)
Definition silent (e : Event) : Prop :=
  match e with
  | Log _ | LogError _ | Stdout _ | Enter _ _ | Sys _ => True
  | _ => False
  end.

(** A quiet computation always settles, reads no line, sends no request,
    leaves the conversation alone and makes silent events only. *)
Definition Quiet {A} (m : M A) : Prop :=
  forall w,
    fst (m w) <> Halt /\
    stdin (snd (m w)) = stdin w /\
    remote (snd (m w)) = remote w /\
    chatHistory (snd (m w)) = chatHistory w /\
    exists evs, trace (snd (m w)) = trace w ++ evs /\ Forall silent evs.

Definition isLog (e : Event) : Prop :=
  match e with
  | Log _ => True
  | _ => False
  end.

(** A computation that only prints: it settles, and the world it leaves
    differs by [console.log] lines only. *)
Definition Talks {A} (m : M A) : Prop :=
  forall w,
    fst (m w) <> Halt /\
    exists evs,
      snd (m w) = mkWorld (disk w) (stdin w) (remote w) (chatHistory w) (trace w ++ evs) /\
      Forall isLog evs.

(** The two events the loop is about: a call handed to the dispatcher, a turn
    appended to the conversation. *)
Definition isDispatchOrPush (e : Event) : bool :=
  match e with
  | Dispatch _ _ | Push _ => true
  | _ => false
  end.

(** A polite computation leaves the conversation alone, hands nothing to the
    dispatcher, reads at most one line, and settles when there is a line to
    read. *)
Definition Polite {A} (m : M A) : Prop :=
  forall w,
    chatHistory (snd (m w)) = chatHistory w /\
    (exists evs, trace (snd (m w)) = trace w ++ evs /\ List.filter isDispatchOrPush evs = []) /\
    length (stdin w) <= S (length (stdin (snd (m w)))) /\
    (stdin w <> [] -> fst (m w) <> Halt).

(** A computation never adds lines to the input. *)
Definition Consumes {A} (m : M A) : Prop :=
  forall w, length (stdin (snd (m w))) <= length (stdin w).

(** ** The executors *)

(** An executor that returns what its [try] block returns, or the error
    payload made of the message of what the block threw. *)
Definition Contains (exec body : JValue -> M ToolResult) (executor prefix : string)
    (success : ToolResult -> Prop) : Prop :=
  forall args w, exists r w',
    exec args w = (Ret r, w') /\
    (body args (entered executor args w) = (Ret r, w') /\ success r
     \/ exists e, body args (entered executor args w) = (Throw e, w') /\
                  r = Failed (prefix +:+ message e)).

(** ** The confirmation gate *)

Definition confirmQuery : string := "Do you want to proceed? (yes/no): ".

(** The answer the gate accepts, as the specification words it. *)
Definition affirmative (answer : string) : Prop :=
  Js.toLowerCase answer = "yes" \/ Js.toLowerCase answer = "y".

(** What a gate does before it asks: it prints the preview. *)
Definition previewWriteFile (args : JValue) : M unit :=
  p <- lift (getProp args "path") ;;
  shown <- lift (toString p) ;;
  log [Str (Js.nl +:+ "I want to write to file: " +:+ shown)] ;;
  content <- lift (getProp args "content") ;;
  preview <- lift (contentPreview content) ;;
  log [Str ("Content preview: " +:+ preview)].

Definition previewExecuteCommand (args : JValue) : M unit :=
  c <- lift (getProp args "command") ;;
  shown <- lift (toString c) ;;
  log [Str (Js.nl +:+ "I want to execute command: " +:+ shown)].

(** The shape the two gates share. *)
Definition gated (preview : M unit) (exec : JValue -> M ToolResult) (cancelled : string)
    (args : JValue) : M ToolResult :=
  preview ;;
  answer <- question confirmQuery ;;
  unawaited
    (if String.eqb (Js.toLowerCase answer) "yes" || String.eqb (Js.toLowerCase answer) "y"
     then (result <- exec args ;; ret result)
     else ret (Cancelled cancelled)).

(** What the specification asks of a gate in front of [exec]. For every
    invocation, with [new] the events the invocation adds:
    - [exec] is entered iff the prompt was shown and the line read for it is
      affirmative;
    - on an affirmative answer the gate is [exec] run right after the answer
      was read;
    - on any other answer the gate resolves with the cancellation, the disk
      is as before and no system call was made. *)
Definition Gate (gate exec : JValue -> M ToolResult) (executor cancelled : string) : Prop :=
  forall args w, exists new,
    trace (snd (gate args w)) = trace w ++ new /\
    ((exists a, Enter executor a ∈ new) <->
     (Question confirmQuery ∈ new /\
      exists answer rest, stdin w = answer :: rest /\ affirmative answer)) /\
    (forall answer rest,
       Question confirmQuery ∈ new -> stdin w = answer :: rest -> affirmative answer ->
       exists asked, stdin asked = rest /\ disk asked = disk w /\
                     gate args w = exec args asked) /\
    (forall answer rest,
       Question confirmQuery ∈ new -> stdin w = answer :: rest -> ~ affirmative answer ->
       fst (gate args w) = Ret (Cancelled cancelled) /\
       disk (snd (gate args w)) = disk w /\
       (forall a, Enter executor a ∉ new) /\
       (forall c, Sys c ∉ new)).

(** ** The stream *)

(** The tool-call batches the chunks carry, in the order received. *)
Fixpoint batches (chunks : list Chunk) : list (list ToolCall) :=
  match chunks with
  | [] => []
  | chunk :: rest =>
      match functionCalls chunk with
      | Some batch => batch :: batches rest
      | None => batches rest
      end
  end.

Definition nonEmpty {A} (l : list A) : bool :=
  match l with
  | [] => false
  | _ :: _ => true
  end.

(** The specification's retained batch: the last of the non-empty batches,
    and [held] (what was retained before) when there is none. *)
Definition latestNonEmpty (held : list ToolCall) (bs : list (list ToolCall)) : list ToolCall :=
  List.last (List.filter nonEmpty bs) held.

(** What the loop holds for dispatch when the stream of [chunks] has
    completed. *)
Definition retained (chunks : list Chunk) (w : World) : option (list ToolCall) :=
  match fst (consumeStream chunks None "" [] w) with
  | Ret (_, toolCalls) => Some toolCalls
  | _ => None
  end.

(** ** The dispatch loop *)




(** ** Frames *)

(** A computation keeps a relation between the world it starts in and the
    world it leaves. *)
Definition Keeps (R : World -> World -> Prop) {A} (m : M A) : Prop :=
  forall w, R w (snd (m w)).

(** Nothing on the disk changed and no line was read. *)
Definition sameDisk (w w' : World) : Prop :=
  disk w' = disk w /\ stdin w' = stdin w.

(** No line is an affirmative answer. *)
Definition noYes (lines : list string) : Prop :=
  Forall (fun line => ~ affirmative line) lines.

(** Lines were only read, and the disk changed only if one of the lines that
    were left to read is an affirmative answer. *)
Definition unapproved (w w' : World) : Prop :=
  (exists used, stdin w = used ++ stdin w') /\
  (noYes (stdin w) -> disk w' = disk w).

(** The conversation only grew. *)
Definition grownHistory (w w' : World) : Prop :=
  exists added, chatHistory w' = chatHistory w ++ added.

Definition isRequest (e : Event) : bool :=
  match e with
  | Request _ => true
  | _ => false
  end.

(** The trace only grew, by events that are not requests to the remote
    model. *)
Definition noRequest (w w' : World) : Prop :=
  exists evs, trace w' = trace w ++ evs /\ List.filter isRequest evs = [].

(** The entry into an executor that changes the system. *)
Definition isRun (e : Event) : bool :=
  match e with
  | Enter executor _ => String.eqb executor "writeFile" || String.eqb executor "executeCommand"
  | _ => false
  end.

Definition isPush (e : Event) : bool :=
  match e with
  | Push _ => true
  | _ => false
  end.

Definition loud (e : Event) : bool := isRun e || isRequest e || isPush e.

(** The test both gates apply to the answer. *)
Definition isYes (answer : string) : bool :=
  String.eqb (Js.toLowerCase answer) "yes" || String.eqb (Js.toLowerCase answer) "y".

(** No line read, the conversation and the pending responses as before, and
    no event that runs a changing executor, sends a request or appends a
    turn. *)
Definition calm (w w' : World) : Prop :=
  stdin w' = stdin w /\ remote w' = remote w /\ chatHistory w' = chatHistory w /\
  exists evs, trace w' = trace w ++ evs /\ List.filter loud evs = [].

(** What a tool may do: read lines and run changing executors, no more of
    these than affirmative lines read; it sends nothing to the remote model
    and leaves the conversation alone. *)
Definition toolStep (w w' : World) : Prop :=
  remote w' = remote w /\ chatHistory w' = chatHistory w /\
  exists used evs,
    stdin w = used ++ stdin w' /\ trace w' = trace w ++ evs /\
    List.filter isRequest evs = [] /\ List.filter isPush evs = [] /\
    length (List.filter isRun evs) <= length (List.filter isYes used).

(** Every run of a changing executor is paid for by an affirmative line. *)
Definition accounted (w w' : World) : Prop :=
  exists used evs,
    stdin w = used ++ stdin w' /\ trace w' = trace w ++ evs /\
    length (List.filter isRun evs) <= length (List.filter isYes used).

Definition loopStep (w w' : World) : Prop := grownHistory w w' /\ accounted w w'.

(** The text of a stream and what the loop echoes of it. *)
Fixpoint fullText (chunks : list Chunk) : string :=
  match chunks with
  | [] => ""
  | chunk :: rest => text chunk +:+ fullText rest
  end.

Fixpoint echoes (chunks : list Chunk) : list Event :=
  match chunks with
  | [] => []
  | chunk :: rest =>
      if Js.truthy (text chunk) then Stdout (text chunk) :: echoes rest else echoes rest
  end.

(** A computation whose only possible return value is [b]. *)
Definition Answers (b : bool) (m : M bool) : Prop :=
  forall w r w', m w = (Ret r, w') -> r = b.

(** The responses still to come are the same. *)
Definition sameRemote (w w' : World) : Prop := remote w' = remote w.

(** * Properties *)

(** ** JavaScript strings *)

Example toLowerCase_YES : Js.toLowerCase "YeS" = "yes".
Proof. reflexivity. Qed.

Example replace_first_only : Js.replace "create create x" "create " "" = "create x".
Proof. reflexivity. Qed.

Example trim_both : Js.trim "  a b  " = "a b".
Proof. reflexivity. Qed.

Example includes_txt : Js.includes "create a.txt and" ".txt" = true.
Proof. reflexivity. Qed.

(** ** What a computation leaves alone *)

Create HintDb agent.

Lemma appends_ret {A} (a : A) : Appends (ret a).
Proof. intros w. exists []. simpl. by rewrite app_nil_r. Qed.

Lemma appends_throw {A} e : Appends (@throw A e).
Proof. intros w. exists []. simpl. by rewrite app_nil_r. Qed.

Lemma appends_halt {A} : Appends (@halt A).
Proof. intros w. exists []. simpl. by rewrite app_nil_r. Qed.

Lemma appends_lift {A} (r : JsError + A) : Appends (lift r).
Proof. destruct r; [apply appends_throw | apply appends_ret]. Qed.

Lemma appends_emit e : Appends (emit e).
Proof. intros w. by exists [e]. Qed.

Lemma appends_bind {A B} (m : M A) (k : A -> M B) :
  Appends m -> (forall a, Appends (k a)) -> Appends (bind m k).
Proof.
  intros Hm Hk w. unfold bind. destruct (Hm w) as [evs Hevs].
  destruct (m w) as [[a|e|] w1]; simpl in *; eauto.
  destruct (Hk a w1) as [evs' Hevs']. exists (evs ++ evs').
  by rewrite Hevs', Hevs, app_assoc.
Qed.

Lemma appends_tryCatch {A} (m : M A) (h : JsError -> M A) :
  Appends m -> (forall e, Appends (h e)) -> Appends (tryCatch m h).
Proof.
  intros Hm Hh w. unfold tryCatch. destruct (Hm w) as [evs Hevs].
  destruct (m w) as [[a|e|] w1]; simpl in *; eauto.
  destruct (Hh e w1) as [evs' Hevs']. exists (evs ++ evs').
  by rewrite Hevs', Hevs, app_assoc.
Qed.

Lemma appends_unawaited {A} (m : M A) : Appends m -> Appends (unawaited m).
Proof.
  intros Hm w. unfold unawaited. destruct (Hm w) as [evs Hevs].
  destruct (m w) as [[a|e|] w1]; simpl in *; eauto.
Qed.

Lemma appends_same_trace {A} (m : M A) :
  (forall w, trace (snd (m w)) = trace w) -> Appends m.
Proof. intros Hm w. exists []. by rewrite Hm, app_nil_r. Qed.

Lemma appends_getDisk : Appends getDisk.
Proof. by apply appends_same_trace. Qed.

Lemma appends_setDisk d : Appends (setDisk d).
Proof. by apply appends_same_trace. Qed.

Lemma appends_getHistory : Appends getHistory.
Proof. by apply appends_same_trace. Qed.

Lemma appends_setHistory h : Appends (setHistory h).
Proof. by apply appends_same_trace. Qed.

Lemma appends_if {A} (b : bool) (m1 m2 : M A) :
  Appends m1 -> Appends m2 -> Appends (if b then m1 else m2).
Proof. by destruct b. Qed.

#[global] Hint Resolve appends_ret appends_throw appends_halt appends_lift appends_emit
  appends_bind appends_tryCatch appends_unawaited appends_getDisk appends_setDisk
  appends_getHistory appends_setHistory appends_if : agent.

Lemma quiet_ret {A} (a : A) : Quiet (ret a).
Proof. intros w. simpl. repeat split; try done. exists []. by rewrite app_nil_r. Qed.

Lemma quiet_throw {A} e : Quiet (@throw A e).
Proof. intros w. simpl. repeat split; try done. exists []. by rewrite app_nil_r. Qed.

Lemma quiet_lift {A} (r : JsError + A) : Quiet (lift r).
Proof. destruct r; [apply quiet_throw | apply quiet_ret]. Qed.

Lemma quiet_emit e : silent e -> Quiet (emit e).
Proof. intros He w. simpl. repeat split; try done. exists [e]. split; [done | by constructor]. Qed.

Lemma quiet_getDisk : Quiet getDisk.
Proof. intros w. simpl. repeat split; try done. exists []. by rewrite app_nil_r. Qed.

Lemma quiet_setDisk d : Quiet (setDisk d).
Proof. intros w. simpl. repeat split; try done. exists []. by rewrite app_nil_r. Qed.

Lemma quiet_bind {A B} (m : M A) (k : A -> M B) :
  Quiet m -> (forall a, Quiet (k a)) -> Quiet (bind m k).
Proof.
  intros Hm Hk w. unfold bind.
  destruct (Hm w) as (Hh & Hs & Hr & Hc & evs & Ht & Hq).
  destruct (m w) as [[a|e|] w1]; simpl in *; [| by eauto 10 | done].
  destruct (Hk a w1) as (Hh' & Hs' & Hr' & Hc' & evs' & Ht' & Hq').
  repeat split; try congruence.
  exists (evs ++ evs'). split; [by rewrite Ht', Ht, app_assoc | by apply Forall_app].
Qed.

Lemma quiet_tryCatch {A} (m : M A) (h : JsError -> M A) :
  Quiet m -> (forall e, Quiet (h e)) -> Quiet (tryCatch m h).
Proof.
  intros Hm Hh w. unfold tryCatch.
  destruct (Hm w) as (Hn & Hs & Hr & Hc & evs & Ht & Hq).
  destruct (m w) as [[a|e|] w1]; simpl in *; [by eauto 10 | | done].
  destruct (Hh e w1) as (Hn' & Hs' & Hr' & Hc' & evs' & Ht' & Hq').
  repeat split; try congruence.
  exists (evs ++ evs'). split; [by rewrite Ht', Ht, app_assoc | by apply Forall_app].
Qed.

Lemma quiet_appends {A} (m : M A) : Quiet m -> Appends m.
Proof. intros Hm w. destruct (Hm w) as (_ & _ & _ & _ & evs & Ht & _). eauto. Qed.

#[global] Hint Resolve quiet_ret quiet_throw quiet_lift quiet_emit quiet_getDisk
  quiet_setDisk quiet_bind quiet_tryCatch : agent.

(** ** The executors (C7) *)

Lemma quiet_resolve `{Platform} p : Quiet (resolve p).
Proof. destruct p; simpl; auto with agent. Qed.

Lemma quiet_fs_readFile filePath : Quiet (fs_readFile filePath).
Proof.
  unfold fs_readFile. apply quiet_bind; [by apply quiet_emit |]. intros _.
  apply quiet_bind; [apply quiet_getDisk |]. intros d.
  destruct (d !! filePath) as [[]|]; auto with agent.
Qed.

Lemma quiet_fs_ensureDir dir : Quiet (fs_ensureDir dir).
Proof.
  unfold fs_ensureDir. apply quiet_bind; [by apply quiet_emit |]. intros _.
  apply quiet_bind; [apply quiet_getDisk |]. intros d.
  destruct (d !! dir) as [[]|]; auto with agent.
Qed.

Lemma quiet_fs_writeFile filePath data : Quiet (fs_writeFile filePath data).
Proof.
  unfold fs_writeFile. destruct data; auto with agent.
  apply quiet_bind; [by apply quiet_emit |]. intros _.
  apply quiet_bind; [apply quiet_getDisk |]. intros d.
  destruct (d !! filePath) as [[]|]; auto with agent.
Qed.

Lemma quiet_fs_readdir `{Platform} dirPath : Quiet (fs_readdir dirPath).
Proof.
  unfold fs_readdir. apply quiet_bind; [by apply quiet_emit |]. intros _.
  apply quiet_bind; [apply quiet_getDisk |]. intros d.
  destruct (d !! dirPath) as [[]|]; auto with agent.
Qed.

Lemma quiet_execSync `{Platform} command : Quiet (execSync command).
Proof.
  unfold execSync. destruct command; auto with agent.
  apply quiet_bind; [by apply quiet_emit |]. intros _.
  apply quiet_bind; [apply quiet_getDisk |]. intros d.
  destruct (shell s d) as [r d']. auto with agent.
Qed.

#[global] Hint Resolve quiet_resolve quiet_fs_readFile quiet_fs_ensureDir
  quiet_fs_writeFile quiet_fs_readdir quiet_execSync : agent.

Lemma quiet_readFile_try `{Platform} args : Quiet (readFile_try args).
Proof. unfold readFile_try. auto 10 with agent. Qed.

Lemma quiet_writeFile_try `{Platform} args : Quiet (writeFile_try args).
Proof. unfold writeFile_try. auto 20 with agent. Qed.

Lemma quiet_listFiles_try `{Platform} args : Quiet (listFiles_try args).
Proof. unfold listFiles_try. auto 10 with agent. Qed.

Lemma quiet_executeCommand_try `{Platform} args : Quiet (executeCommand_try args).
Proof. unfold executeCommand_try. auto 10 with agent. Qed.

#[global] Hint Resolve quiet_readFile_try quiet_writeFile_try quiet_listFiles_try
  quiet_executeCommand_try : agent.

Lemma contains_intro (exec body : JValue -> M ToolResult) executor prefix
    (success : ToolResult -> Prop) :
  (forall args, exec args =
     (emit (Enter executor args) ;;
      tryCatch (body args) (fun error => ret (Failed (prefix +:+ message error))))) ->
  (forall args, Quiet (body args)) ->
  (forall args w r w', body args w = (Ret r, w') -> success r) ->
  Contains exec body executor prefix success.
Proof.
  intros Hexec Hquiet Hsucc args w. rewrite Hexec. unfold bind, tryCatch, entered. simpl.
  set (w0 := mkWorld _ _ _ _ _).
  destruct (Hquiet args w0) as (Hn & _).
  destruct (body args w0) as [[r|e|] w1] eqn:Hb; simpl in *; [| | done].
  - exists r, w1. split; [done |]. left. eauto.
  - eexists _, w1. split; [done |]. right. eauto.
Qed.

Lemma readFile_try_success `{Platform} args w r w' :
  readFile_try args w = (Ret r, w') -> exists content, r = Content content.
Proof.
  unfold readFile_try, bind, ret. intros Hr.
  repeat (case_match; simplify_eq); eauto.
Qed.

Lemma writeFile_try_success `{Platform} args w r w' :
  writeFile_try args w = (Ret r, w') -> exists msg, r = Written msg.
Proof.
  unfold writeFile_try, bind, ret. intros Hr.
  repeat (case_match; simplify_eq); eauto.
Qed.

Lemma listFiles_try_success `{Platform} args w r w' :
  listFiles_try args w = (Ret r, w') -> exists files, r = Files files.
Proof.
  unfold listFiles_try, bind, ret. intros Hr.
  repeat (case_match; simplify_eq); eauto.
Qed.

Lemma executeCommand_try_success `{Platform} args w r w' :
  executeCommand_try args w = (Ret r, w') -> exists output, r = Output output.
Proof.
  unfold executeCommand_try, bind, ret. intros Hr.
  repeat (case_match; simplify_eq); eauto.
Qed.

Lemma readFile_contains `{Platform} :
  Contains readFile readFile_try "readFile" "Failed to read file: "
    (fun r => exists content, r = Content content).
Proof.
  apply contains_intro; try done; auto with agent.
  intros. by eapply readFile_try_success.
Qed.

Lemma writeFile_contains `{Platform} :
  Contains writeFile writeFile_try "writeFile" "Failed to write file: "
    (fun r => exists msg, r = Written msg).
Proof.
  apply contains_intro; try done; auto with agent.
  intros. by eapply writeFile_try_success.
Qed.

Lemma listFiles_contains `{Platform} :
  Contains listFiles listFiles_try "listFiles" "Failed to list files: "
    (fun r => exists files, r = Files files).
Proof.
  apply contains_intro; try done; auto with agent.
  intros. by eapply listFiles_try_success.
Qed.

Lemma executeCommand_contains `{Platform} :
  Contains executeCommand executeCommand_try "executeCommand" "Command execution failed: "
    (fun r => exists output, r = Output output).
Proof.
  apply contains_intro; try done; auto with agent.
  intros. by eapply executeCommand_try_success.
Qed.

(** C7. Whatever the arguments and the state of the machine, each of the four
    executors returns: either the success payload its [try] block made
    ([content], [success], [files], [output]), or an [error] payload whose text
    is the executor's prefix followed by the message of the error the block
    threw. No executor throws and none leaves its caller waiting. *)
Theorem executors_never_throw `{Platform} :
  Contains readFile readFile_try "readFile" "Failed to read file: "
    (fun r => exists content, r = Content content) /\
  Contains writeFile writeFile_try "writeFile" "Failed to write file: "
    (fun r => exists msg, r = Written msg) /\
  Contains listFiles listFiles_try "listFiles" "Failed to list files: "
    (fun r => exists files, r = Files files) /\
  Contains executeCommand executeCommand_try "executeCommand" "Command execution failed: "
    (fun r => exists output, r = Output output).
Proof.
  split; [apply readFile_contains |].
  split; [apply writeFile_contains |].
  split; [apply listFiles_contains | apply executeCommand_contains].
Qed.

(** The executors are quiet and settle with a result. *)

Lemma quiet_executor (exec body : JValue -> M ToolResult) executor prefix args :
  exec args =
    (emit (Enter executor args) ;;
     tryCatch (body args) (fun error => ret (Failed (prefix +:+ message error)))) ->
  Quiet (body args) -> Quiet (exec args).
Proof. intros -> Hb. apply quiet_bind; [by apply quiet_emit |]. auto with agent. Qed.

Lemma quiet_readFile `{Platform} args : Quiet (readFile args).
Proof. eapply quiet_executor; [done | auto with agent]. Qed.

Lemma quiet_writeFile `{Platform} args : Quiet (writeFile args).
Proof. eapply quiet_executor; [done | auto with agent]. Qed.

Lemma quiet_listFiles `{Platform} args : Quiet (listFiles args).
Proof. eapply quiet_executor; [done | auto with agent]. Qed.

Lemma quiet_executeCommand `{Platform} args : Quiet (executeCommand args).
Proof. eapply quiet_executor; [done | auto with agent]. Qed.

#[global] Hint Resolve quiet_readFile quiet_writeFile quiet_listFiles
  quiet_executeCommand : agent.

Lemma contains_settles exec body executor prefix success args w :
  Contains exec body executor prefix success ->
  exists r w', exec args w = (Ret r, w').
Proof. intros Hc. destruct (Hc args w) as (r & w' & Hr & _). eauto. Qed.

Lemma executor_starts (exec body : JValue -> M ToolResult) executor prefix args w :
  exec args =
    (emit (Enter executor args) ;;
     tryCatch (body args) (fun error => ret (Failed (prefix +:+ message error)))) ->
  Quiet (body args) ->
  exists evs, trace (snd (exec args w)) = trace w ++ Enter executor args :: evs /\
              Forall silent evs.
Proof.
  intros -> Hb. unfold bind. simpl. set (w0 := mkWorld _ _ _ _ _).
  assert (Quiet (tryCatch (body args)
                   (fun error => ret (Failed (prefix +:+ message error))))) as Hq
    by auto with agent.
  destruct (Hq w0) as (_ & _ & _ & _ & evs & Ht & Hs).
  exists evs. split; [| done]. rewrite Ht. simpl. by rewrite <- app_assoc.
Qed.

(** ** The confirmation gate (C1) *)

Lemma affirmative_test answer :
  String.eqb (Js.toLowerCase answer) "yes" || String.eqb (Js.toLowerCase answer) "y" = true
  <-> affirmative answer.
Proof.
  unfold affirmative. rewrite orb_true_iff, !String.eqb_eq. done.
Qed.

Lemma confirmWriteFile_gated `{Platform} args w :
  confirmWriteFile args w =
  gated (previewWriteFile args) writeFile "File write operation cancelled by user" args w.
Proof.
  unfold confirmWriteFile, gated, previewWriteFile, bind.
  destruct (lift (getProp args "path") w) as [[p|e|] w1]; try done.
  destruct (lift (toString p) w1) as [[shown|e|] w2]; try done.
  destruct (log _ w2) as [[[]|e|] w3]; try done.
  destruct (lift (getProp args "content") w3) as [[content|e|] w4]; try done.
  destruct (lift (contentPreview content) w4) as [[preview|e|] w5]; try done.
Qed.

Lemma confirmExecuteCommand_gated `{Platform} args w :
  confirmExecuteCommand args w =
  gated (previewExecuteCommand args) executeCommand "Command execution cancelled by user" args w.
Proof.
  unfold confirmExecuteCommand, gated, previewExecuteCommand, bind.
  destruct (lift (getProp args "command") w) as [[p|e|] w1]; try done.
  destruct (lift (toString p) w1) as [[shown|e|] w2]; try done.
Qed.

Lemma talks_ret {A} (a : A) : Talks (ret a).
Proof. intros [d i r h t]. split; [done |]. exists []. simpl. by rewrite app_nil_r. Qed.

Lemma talks_throw {A} e : Talks (@throw A e).
Proof. intros [d i r h t]. split; [done |]. exists []. simpl. by rewrite app_nil_r. Qed.

Lemma talks_lift {A} (r : JsError + A) : Talks (lift r).
Proof. destruct r; [apply talks_throw | apply talks_ret]. Qed.

Lemma talks_log line : Talks (log line).
Proof. intros w. split; [done |]. exists [Log line]. split; [done | by constructor]. Qed.

Lemma talks_bind {A B} (m : M A) (k : A -> M B) :
  Talks m -> (forall a, Talks (k a)) -> Talks (bind m k).
Proof.
  intros Hm Hk w. unfold bind. destruct (Hm w) as (Hn & evs & Hw & Hl).
  destruct (m w) as [[a|e|] w1]; simpl in *; [| by eauto | done].
  destruct (Hk a w1) as (Hn' & evs' & Hw' & Hl'). split; [done |].
  exists (evs ++ evs'). split; [| by apply Forall_app].
  rewrite Hw', Hw. simpl. by rewrite app_assoc.
Qed.

#[global] Hint Resolve talks_ret talks_throw talks_lift talks_log talks_bind : agent.

Lemma talks_previewWriteFile args : Talks (previewWriteFile args).
Proof. unfold previewWriteFile. auto 20 with agent. Qed.

Lemma talks_previewExecuteCommand args : Talks (previewExecuteCommand args).
Proof. unfold previewExecuteCommand. auto 20 with agent. Qed.

Lemma isLog_not_elem (evs : list Event) (e : Event) :
  Forall isLog evs -> ~ isLog e -> e ∉ evs.
Proof. intros Hl He Hin. rewrite Forall_forall in Hl. by apply He, Hl. Qed.

Ltac not_logged Hl Ha :=
  exfalso; eapply (isLog_not_elem _ _ Hl); [| exact Ha]; simpl; tauto.

Lemma gated_gate (preview : M unit) (exec : JValue -> M ToolResult) executor cancelled :
  Talks preview ->
  (forall args w, exists r w', exec args w = (Ret r, w')) ->
  (forall args w, exists evs, trace (snd (exec args w)) = trace w ++ Enter executor args :: evs) ->
  forall args w, exists new,
    trace (snd (gated preview exec cancelled args w)) = trace w ++ new /\
    ((exists a, Enter executor a ∈ new) <->
     (Question confirmQuery ∈ new /\
      exists answer rest, stdin w = answer :: rest /\ affirmative answer)) /\
    (forall answer rest,
       Question confirmQuery ∈ new -> stdin w = answer :: rest -> affirmative answer ->
       exists asked, stdin asked = rest /\ disk asked = disk w /\
                     gated preview exec cancelled args w = exec args asked) /\
    (forall answer rest,
       Question confirmQuery ∈ new -> stdin w = answer :: rest -> ~ affirmative answer ->
       fst (gated preview exec cancelled args w) = Ret (Cancelled cancelled) /\
       disk (snd (gated preview exec cancelled args w)) = disk w /\
       (forall a, Enter executor a ∉ new) /\
       (forall c, Sys c ∉ new)).
Proof.
  intros Hpre Hsettle Hstart args w. unfold gated, bind.
  destruct (Hpre w) as (Hn & evs & Hw & Hl).
  destruct (preview w) as [[[]|e|] w1]; simpl in *; [| | done]; subst w1.
  - unfold question, readLine, bind. simpl. destruct (stdin w) as [|answer rest] eqn:Hin.
    + exists (evs ++ [Question confirmQuery]). simpl.
      split; [by rewrite app_assoc |].
      split; [| split; intros; discriminate].
      split.
      * intros [a Ha]. apply elem_of_app in Ha as [Ha|Ha].
        -- not_logged Hl Ha.
        -- apply list_elem_of_singleton in Ha. discriminate.
      * intros (_ & ? & ? & ? & _). discriminate.
    + set (asked := mkWorld _ rest _ _ _). unfold unawaited.
      destruct (String.eqb (Js.toLowerCase answer) "yes"
                || String.eqb (Js.toLowerCase answer) "y") eqn:Htest.
      * apply affirmative_test in Htest.
        destruct (Hsettle args asked) as (r & w' & Hr).
        destruct (Hstart args asked) as (evs' & Ht).
        unfold bind, ret. rewrite Hr in *. simpl in *.
        exists (evs ++ Question confirmQuery :: Enter executor args :: evs').
        split; [by rewrite Ht, <- !app_assoc |].
        split; [| split].
        -- split; [| intros _; exists args; set_solver].
           intros _. split; [set_solver | eauto].
        -- intros ? ? _ [= <- <-] _. by exists asked.
        -- intros ? ? _ [= <- <-] Hno. done.
      * assert (~ affirmative answer) as Hno.
        { rewrite <- affirmative_test. congruence. }
        exists (evs ++ [Question confirmQuery]). simpl.
        split; [by rewrite app_assoc |].
        assert (forall a, Enter executor a ∉ evs ++ [Question confirmQuery]) as Hnone.
        { intros a Ha. apply elem_of_app in Ha as [Ha|Ha].
          - not_logged Hl Ha.
          - apply list_elem_of_singleton in Ha. discriminate. }
        split; [| split].
        -- split; [intros [a Ha]; by apply Hnone in Ha |].
           intros (_ & ? & ? & [= <- <-] & ?). done.
        -- intros ? ? _ [= <- <-] ?. done.
        -- intros ? ? _ _ _. repeat split; try done.
           intros c Hc. apply elem_of_app in Hc as [Hc|Hc].
           ++ not_logged Hl Hc.
           ++ apply list_elem_of_singleton in Hc. discriminate.
  - exists evs. split; [done |].
    assert (Question confirmQuery ∉ evs) as Hq by (apply isLog_not_elem; simpl; tauto).
    split; [| split; intros; done].
    split; [| intros []; done].
    intros [a Ha]. not_logged Hl Ha.
Qed.

Lemma writeFile_starts `{Platform} args w :
  exists evs, trace (snd (writeFile args w)) = trace w ++ Enter "writeFile" args :: evs.
Proof.
  destruct (executor_starts writeFile writeFile_try "writeFile" "Failed to write file: " args w)
    as (evs & Ht & _); eauto with agent.
Qed.

Lemma executeCommand_starts `{Platform} args w :
  exists evs,
    trace (snd (executeCommand args w)) = trace w ++ Enter "executeCommand" args :: evs.
Proof.
  destruct (executor_starts executeCommand executeCommand_try "executeCommand"
              "Command execution failed: " args w) as (evs & Ht & _); eauto with agent.
Qed.

Lemma confirmWriteFile_gate `{Platform} :
  Gate confirmWriteFile writeFile "writeFile" "File write operation cancelled by user".
Proof.
  intros args w. rewrite confirmWriteFile_gated.
  apply gated_gate.
  - apply talks_previewWriteFile.
  - intros. eapply contains_settles, writeFile_contains.
  - intros. apply writeFile_starts.
Qed.

Lemma confirmExecuteCommand_gate `{Platform} :
  Gate confirmExecuteCommand executeCommand "executeCommand"
    "Command execution cancelled by user".
Proof.
  intros args w. rewrite confirmExecuteCommand_gated.
  apply gated_gate.
  - apply talks_previewExecuteCommand.
  - intros. eapply contains_settles, executeCommand_contains.
  - intros. apply executeCommand_starts.
Qed.

(** C1 (as the code has it). Through either gate, the executor is entered iff
    the prompt of that invocation was shown and the line read for it is
    [yes] or [y] once lowercased; it then runs right after the answer and its
    result is the gate's. On any other answer the gate resolves with its
    cancellation -- [File write operation cancelled by user] for [writeFile],
    [Command execution cancelled by user] for [executeCommand] -- and neither
    the executor nor any system call runs, and the disk is as before. *)
Theorem gate_runs_executor_iff_affirmative `{Platform} :
  Gate confirmWriteFile writeFile "writeFile" "File write operation cancelled by user" /\
  Gate confirmExecuteCommand executeCommand "executeCommand"
    "Command execution cancelled by user".
Proof. split; [apply confirmWriteFile_gate | apply confirmExecuteCommand_gate]. Qed.

Lemma gate_runs_executor_iff_affirmative_witness :
  exists asked,
    @confirmWriteFile posix (JObj [("path", JStr "x"); ("content", JStr "hello")])
      (boot ["Y"] []) =
    @writeFile posix (JObj [("path", JStr "x"); ("content", JStr "hello")]) asked.
Proof.
  destruct (proj1 (@gate_runs_executor_iff_affirmative posix)
              (JObj [("path", JStr "x"); ("content", JStr "hello")]) (boot ["Y"] []))
    as (new & Ht & _ & Hyes & _).
  vm_compute in Ht. subst new.
  destruct (Hyes "Y" []) as (asked & _ & _ & Heq).
  - set_solver.
  - reflexivity.
  - right. reflexivity.
  - exists asked. exact Heq.
Defined.

(** The cancellation of the [executeCommand] gate does not have the form
    [<operation> operation cancelled by user]. *)
Lemma executeCommand_cancellation_form :
  fst (@confirmExecuteCommand posix (JObj [("command", JStr "ls")]) (boot ["no"] []))
  = Ret (Cancelled "Command execution cancelled by user") /\
  ~ exists operation,
      "Command execution cancelled by user" = operation +:+ " operation cancelled by user".
Proof.
  split; [reflexivity |].
  intros [op H].
  repeat (destruct op as [|? op]; simpl in H; [discriminate H | injection H as _ H]).
  destruct op; discriminate H.
Qed.

(** ** The dispatcher (C2) *)

Lemma executeTool_unknown `{Platform} toolName args w :
  toolName ∉ tool_name <$> tools ->
  executeTool toolName args w =
  (Ret (Failed ("Tool " +:+ toolName +:+ " not found")), dispatched toolName args w).
Proof.
  intros Hnot. unfold executeTool, bind, emit, tools, dispatched.
  cbn -[String.eqb append].
  repeat match goal with
         | |- context [String.eqb ?known toolName] =>
             destruct (String.eqb_spec known toolName) as [<-|_];
             [exfalso; apply Hnot; unfold tools; cbn; set_solver |]
         end.
  reflexivity.
Qed.

Lemma executeTool_known `{Platform} tool args w :
  tool ∈ tools ->
  executeTool (tool_name tool) args w =
  tryCatch (execute tool args)
    (fun error =>
       ret (Failed ("Failed to execute tool " +:+ tool_name tool +:+ ": " +:+ message error)))
    (dispatched (tool_name tool) args w).
Proof.
  intros Hin. unfold tools in Hin.
  repeat (apply elem_of_cons in Hin as [->|Hin]; [reflexivity |]).
  by apply elem_of_nil in Hin.
Qed.




(** ** The content preview (C6) *)

Lemma slice0_short (n : nat) (s : string) :
  String.length s <= n -> Js.slice0 n s = s.
Proof.
  unfold Js.slice0. revert n. induction s as [|c s IH]; intros [|n] Hlen; simpl in *;
    try done; try lia.
  f_equal. apply IH. lia.
Qed.

Lemma slice0_long (n : nat) (s : string) :
  n <= String.length s ->
  exists rest, s = Js.slice0 n s +:+ rest /\ String.length (Js.slice0 n s) = n.
Proof.
  unfold Js.slice0. revert n. induction s as [|c s IH]; intros [|n] Hlen; simpl in *;
    try lia; eauto.
  destruct (IH n) as (rest & Hs & Hl); [lia |].
  exists rest.
  split; [change (String c s = String c (substring 0 n s +:+ rest)); congruence | congruence].
Qed.

Lemma appends_question query : Appends (question query).
Proof.
  intros w. unfold question, readLine, bind. simpl. exists [Question query].
  by destruct (stdin w).
Qed.

Lemma appends_confirmation `{Platform} (exec : JValue -> M ToolResult) cancelled args :
  Appends (exec args) ->
  Appends (answer <- question confirmQuery ;;
           unawaited
             (if String.eqb (Js.toLowerCase answer) "yes"
                 || String.eqb (Js.toLowerCase answer) "y"
              then (result <- exec args ;; ret result)
              else ret (Cancelled cancelled))).
Proof.
  intros He. apply appends_bind; [apply appends_question |]. intros answer.
  auto 10 with agent.
Qed.

(** C6. The gate of [writeFile] prints, as its second line, the preview of the
    content: the content itself when it has 100 characters or fewer, and its
    first 100 characters followed by [...] when it has more. *)
Theorem preview_truncates_after_100 `{Platform} (path content : string) (w : World) :
  exists shown tail,
    trace (snd (confirmWriteFile (JObj [("path", JStr path); ("content", JStr content)]) w))
    = trace w ++ Log [Str (Js.nl +:+ "I want to write to file: " +:+ path)]
              :: Log [Str ("Content preview: " +:+ shown)] :: tail /\
    if (String.length content <=? 100)%nat
    then shown = content
    else exists first rest,
        content = first +:+ rest /\ String.length first = 100 /\ shown = first +:+ "...".
Proof.
  set (shown := Js.slice0 100 content
                +:+ (if (100 <? String.length content)%nat then "..." else "")).
  destruct (appends_confirmation writeFile "File write operation cancelled by user"
              (JObj [("path", JStr path); ("content", JStr content)])
              (quiet_appends _ (quiet_writeFile _))
              (mkWorld (disk w) (stdin w) (remote w) (chatHistory w)
                 ((trace w ++ [Log [Str (Js.nl +:+ "I want to write to file: " +:+ path)]])
                          ++ [Log [Str ("Content preview: " +:+ shown)]])))
    as [tail Htail].
  exists shown, tail. split.
  - unfold confirmWriteFile. unfold bind at 1 2 3 4 5 6. cbn -[Js.slice0 Nat.ltb append question].
    fold shown. etrans; [exact Htail |]. simpl. by rewrite <- !app_assoc.
  - subst shown. destruct (Nat.leb_spec (String.length content) 100) as [Hle|Hgt].
    + rewrite slice0_short by done.
      destruct (Nat.ltb_spec 100 (String.length content)); [lia |].
      clear. induction content as [|c content IH]; [done |].
      change (String c (content +:+ "") = String c content). by rewrite IH.
    + destruct (Nat.ltb_spec 100 (String.length content)); [| lia].
      destruct (slice0_long 100 content) as (rest & Hs & Hl); [lia |]. eauto.
Qed.

(** ** The stream (C4) *)

Lemma last_cons_default {A} (x d : A) (l : list A) :
  List.last (x :: l) d = List.last l x.
Proof.
  revert x d. induction l as [|y l IH]; intros x d; [done |].
  change (List.last (y :: l) d = List.last (y :: l) x). by rewrite !IH.
Qed.

Lemma consumeStream_retains (chunks : list Chunk) :
  forall aiResponse toolCalls w, exists aiResponse' w',
    consumeStream chunks None aiResponse toolCalls w
    = (Ret (aiResponse', latestNonEmpty toolCalls (batches chunks)), w').
Proof.
  induction chunks as [|chunk rest IH]; intros aiResponse toolCalls w.
  - by exists aiResponse, w.
  - cbn [consumeStream batches]. unfold bind at 1.
    assert (exists a1 w1,
               (if Js.truthy (text chunk)
                then (stdoutWrite (text chunk) ;; ret (aiResponse +:+ text chunk))
                else ret aiResponse) w = (Ret a1, w1)) as (a1 & w1 & ->).
    { destruct (Js.truthy (text chunk)); eauto. }
    destruct (functionCalls chunk) as [[|call batch]|]; cbn [length Nat.ltb Nat.leb].
    + apply IH.
    + destruct (IH a1 (call :: batch) w1) as (a' & w' & ->).
      exists a', w'. unfold latestNonEmpty. cbn [List.filter nonEmpty].
      by rewrite last_cons_default.
    + apply IH.
Qed.

Lemma retained_latest (chunks : list Chunk) (w : World) :
  retained chunks w = Some (latestNonEmpty [] (batches chunks)).
Proof.
  unfold retained. by destruct (consumeStream_retains chunks "" [] w) as (a & w' & ->).
Qed.

Lemma batches_app (chunks more : list Chunk) :
  batches (chunks ++ more) = batches chunks ++ batches more.
Proof.
  induction chunks as [|chunk rest IH]; [done |].
  simpl. destruct (functionCalls chunk); simpl; by rewrite IH.
Qed.

(** C4. When the stream completes, the batch held for dispatch is the last
    non-empty batch the chunks carried (and none if there was none). So a
    last chunk with a non-empty batch replaces whatever was held, and a last
    chunk with an empty batch, or with none, leaves what was held. *)
Theorem stream_retains_latest_nonempty_batch (chunks : list Chunk) (w : World) :
  retained chunks w = Some (latestNonEmpty [] (batches chunks)) /\
  (forall text call batch,
     retained (chunks ++ [mkChunk text (Some (call :: batch))]) w = Some (call :: batch)) /\
  (forall text,
     retained (chunks ++ [mkChunk text (Some [])]) w = retained chunks w) /\
  (forall text,
     retained (chunks ++ [mkChunk text None]) w = retained chunks w).
Proof.
  split; [apply retained_latest |]. split; [| split]; intros; rewrite !retained_latest;
    f_equal; unfold latestNonEmpty; rewrite batches_app; simpl.
  - rewrite List.filter_app. simpl. apply List.last_last.
  - rewrite List.filter_app. simpl. by rewrite app_nil_r.
  - by rewrite app_nil_r.
Qed.

Example stream_of_four_chunks :
  let call n := mkToolCall n (Denotes JNull) in
  fst (consumeStream
         [ mkChunk "a" (Some [call "listFiles"]);
           mkChunk "b" (Some [call "readFile"; call "writeFile"]);
           mkChunk "" (Some []);
           mkChunk "c" None ]
         None "" [] (boot [] []))
  = Ret ("abc", [call "readFile"; call "writeFile"]).
Proof. reflexivity. Qed.

(** ** The dispatch loop (C5) *)

Lemma filter_silent (evs : list Event) :
  Forall silent evs -> List.filter isDispatchOrPush evs = [].
Proof.
  induction 1 as [|e evs He _ IH]; [done |]. simpl. rewrite IH. by destruct e.
Qed.

Lemma filter_isLog (evs : list Event) :
  Forall isLog evs -> List.filter isDispatchOrPush evs = [].
Proof.
  induction 1 as [|e evs He _ IH]; [done |]. simpl. rewrite IH. by destruct e.
Qed.

Lemma quiet_polite {A} (m : M A) : Quiet m -> Polite m.
Proof.
  intros Hq w. destruct (Hq w) as (Hn & Hs & _ & Hc & evs & Ht & Hsil).
  split; [done |]. split; [exists evs; split; [done | by apply filter_silent] |].
  rewrite Hs. split; [lia | done].
Qed.

Lemma polite_gated (preview : M unit) (exec : JValue -> M ToolResult) cancelled args :
  Talks preview -> Quiet (exec args) ->
  (forall w, exists r w', exec args w = (Ret r, w')) ->
  Polite (gated preview exec cancelled args).
Proof.
  intros Hpre Hexec Hsettle w. unfold gated, bind.
  destruct (Hpre w) as (Hn & evs & Hw & Hl).
  destruct (preview w) as [[[]|e|] w1]; simpl in *; [| | done]; subst w1; simpl.
  - unfold question, readLine, bind. simpl. destruct (stdin w) as [|answer rest] eqn:Hin; simpl.
    + split; [done |]. split; [| split; [lia | done]].
      exists (evs ++ [Question confirmQuery]). split; [by rewrite app_assoc |].
      rewrite List.filter_app, filter_isLog by done. done.
    + set (asked := mkWorld _ rest _ _ _). unfold unawaited.
      destruct (String.eqb (Js.toLowerCase answer) "yes"
                || String.eqb (Js.toLowerCase answer) "y").
      * destruct (Hexec asked) as (Hh & Hs & _ & Hc & evs' & Ht & Hsil).
        unfold bind, ret. destruct (Hsettle asked) as (r & w' & Hr).
        rewrite Hr in *. simpl in *.
        split; [done |]. split; [| split; [rewrite Hs; lia | by intros _]].
        exists (evs ++ Question confirmQuery :: evs').
        split; [by rewrite Ht, <- !app_assoc |].
        rewrite List.filter_app, filter_isLog by done. simpl.
        by apply filter_silent.
      * simpl. split; [done |]. split; [| split; [lia | done]].
        exists (evs ++ [Question confirmQuery]). split; [by rewrite app_assoc |].
        rewrite List.filter_app, filter_isLog by done. done.
  - split; [done |]. split; [| split; [lia | done]].
    exists evs. split; [done | by apply filter_isLog].
Qed.

Lemma polite_ext {A} (m m' : M A) : (forall w, m w = m' w) -> Polite m' -> Polite m.
Proof. intros Heq Hp w. rewrite Heq. apply Hp. Qed.

Lemma polite_tool `{Platform} tool args : tool ∈ tools -> Polite (execute tool args).
Proof.
  intros Hin. unfold tools in Hin.
  repeat (apply elem_of_cons in Hin as [->|Hin]); [| | | | by apply elem_of_nil in Hin]; simpl.
  - apply quiet_polite. auto with agent.
  - eapply polite_ext; [apply confirmWriteFile_gated |].
    apply polite_gated; [apply talks_previewWriteFile | auto with agent |].
    intros. eapply contains_settles, writeFile_contains.
  - apply quiet_polite. auto with agent.
  - eapply polite_ext; [apply confirmExecuteCommand_gated |].
    apply polite_gated; [apply talks_previewExecuteCommand | auto with agent |].
    intros. eapply contains_settles, executeCommand_contains.
Qed.

(** One dispatch: the call is handed over, nothing else is, the conversation
    is not touched, and with a line left to read a result comes back. *)
Lemma executeTool_step `{Platform} toolName args w :
  exists evs,
    trace (snd (executeTool toolName args w)) = trace w ++ Dispatch toolName args :: evs /\
    List.filter isDispatchOrPush evs = [] /\
    chatHistory (snd (executeTool toolName args w)) = chatHistory w /\
    length (stdin w) <= S (length (stdin (snd (executeTool toolName args w)))) /\
    (stdin w <> [] -> exists r, fst (executeTool toolName args w) = Ret r).
Proof.
  destruct (decide (toolName ∈ tool_name <$> tools)) as [Hin|Hnot].
  - apply list_elem_of_fmap in Hin as (tool & -> & Hin).
    rewrite executeTool_known by done. unfold tryCatch.
    destruct (polite_tool tool args Hin (dispatched (tool_name tool) args w))
      as (Hc & (evs & Ht & Hf) & Hlen & Hsettle).
    exists evs.
    destruct (execute tool args _) as [[r|e|] w1]; simpl in *;
      (split; [by rewrite Ht, <- app_assoc |]); repeat split; try done; eauto.
    intros Hne. by destruct (Hsettle Hne).
  - rewrite executeTool_unknown by done. exists []. simpl.
    repeat split; try done; [lia | eauto].
Qed.






(** ** Leaving the session (C9) *)

Lemma appends_readLine : Appends readLine.
Proof. apply appends_same_trace. intros w. unfold readLine. by destruct (stdin w). Qed.

Lemma appends_awaitResponse : Appends awaitResponse.
Proof. apply appends_same_trace. intros w. unfold awaitResponse. by destruct (remote w). Qed.

Lemma appends_log line : Appends (log line).
Proof. apply appends_emit. Qed.

Lemma appends_logError line : Appends (logError line).
Proof. apply appends_emit. Qed.

Lemma appends_stdoutWrite chars : Appends (stdoutWrite chars).
Proof. apply appends_emit. Qed.

Lemma appends_push t : Appends (push t).
Proof. unfold push. auto with agent. Qed.

Lemma appends_JSON_parse t : Appends (JSON_parse t).
Proof. destruct t; simpl; auto with agent. Qed.

Lemma appends_executeTool `{Platform} toolName args : Appends (executeTool toolName args).
Proof. intros w. destruct (executeTool_step toolName args w) as (evs & Ht & _). eauto. Qed.

#[global] Hint Resolve appends_readLine appends_awaitResponse appends_log appends_logError
  appends_stdoutWrite appends_push appends_JSON_parse appends_executeTool : agent.

Lemma appends_consumeStream chunks failure :
  forall aiResponse toolCalls, Appends (consumeStream chunks failure aiResponse toolCalls).
Proof.
  induction chunks as [|chunk rest IH]; intros aiResponse toolCalls; cbn [consumeStream].
  - destruct failure; auto with agent.
  - apply appends_bind; [auto with agent |]. intros a. apply IH.
Qed.

Lemma appends_dispatchAll `{Platform} toolCalls : Appends (dispatchAll toolCalls).
Proof.
  induction toolCalls as [|toolCall rest IH]; cbn [dispatchAll]; auto 10 with agent.
Qed.

#[global] Hint Resolve appends_consumeStream appends_dispatchAll : agent.

Lemma processUserInput_exit `{Platform} userInput w :
  Js.toLowerCase userInput = "exit" ->
  processUserInput userInput w = (Ret false, after w [Log [Str "Goodbye!"]; Close]).
Proof.
  intros Hexit. unfold processUserInput. rewrite Hexit. simpl.
  unfold bind, log, rlClose, emit, ret, after. simpl. by rewrite <- app_assoc.
Qed.

Lemma processUserInput_sends `{Platform} userInput w :
  Js.toLowerCase userInput <> "exit" ->
  exists tail,
    trace (snd (processUserInput userInput w))
    = trace w ++ Push (mkTurn user (Plain userInput))
              :: Request (chatHistory w ++ [mkTurn user (Plain userInput)]) :: tail.
Proof.
  intros Hgo. unfold processUserInput.
  destruct (String.eqb_spec (Js.toLowerCase userInput) "exit") as [|_]; [done |].
  unfold bind at 1. unfold push, bind at 1 2. cbn [emit getHistory setHistory fst snd chatHistory trace].
  set (w1 := mkWorld _ _ _ _ _).
  unfold tryCatch, bind at 1. cbn [getHistory]. unfold generateContentStream, bind at 1 2.
  cbn [emit]. set (w2 := mkWorld _ _ _ _ _).
  assert (Appends (tryCatch
                     (result <- awaitResponse ;;
                      match result with
                      | Rejected e => throw e
                      | Streamed chunks failure =>
                          log [Str (Js.nl +:+ "Assistant: ")] ;;
                          r <- consumeStream chunks failure "" [] ;;
                          let (aiResponse, toolCalls) := r in
                          log [Str Js.nl] ;;
                          push (mkTurn model (Plain aiResponse)) ;;
                          (if (0 <? length toolCalls)%nat
                           then (log [Str (Js.nl +:+ "Executing tool calls...")] ;;
                                 dispatchAll toolCalls)
                           else ret tt) ;;
                          ret true
                      end)
                     (fun error => logError [Str "Error:"; Thrown error] ;; ret true)))
    as Happ.
  { apply appends_tryCatch; [| auto with agent].
    apply appends_bind; [auto with agent |]. intros [e|chunks failure]; [auto with agent |].
    apply appends_bind; [auto with agent |]. intros _.
    apply appends_bind; [auto with agent |]. intros [aiResponse toolCalls].
    auto 10 with agent. }
  destruct (Happ w2) as [tail Htail]. exists tail.
  etrans; [exact Htail |]. subst w2 w1. simpl. by rewrite <- !app_assoc.
Qed.

(** C9. An input that is [exit] once lowercased ends the session: the farewell
    is printed, the input stream is closed, [processUserInput] answers [false]
    and [askQuestion] returns without asking again, whatever is left to do --
    so no request follows. Any other input is appended as a [user] turn and
    the conversation, with that turn, is sent. *)
Theorem exit_ends_session `{Platform} (userInput : string) (w : World) :
  (Js.toLowerCase userInput = "exit" ->
   processUserInput userInput w = (Ret false, after w [Log [Str "Goodbye!"]; Close]) /\
   forall fuel lines,
     askQuestion (S fuel) (typing (userInput :: lines) w)
     = (Ret tt,
        after (typing lines w) [Question (Js.nl +:+ "You: "); Log [Str "Goodbye!"]; Close])) /\
  (Js.toLowerCase userInput <> "exit" ->
   exists tail,
     trace (snd (processUserInput userInput w))
     = trace w ++ Push (mkTurn user (Plain userInput))
               :: Request (chatHistory w ++ [mkTurn user (Plain userInput)]) :: tail).
Proof.
  split; [| apply processUserInput_sends].
  intros Hexit. split; [by apply processUserInput_exit |].
  intros fuel lines. cbn [askQuestion]. unfold question, readLine, bind at 1 2.
  cbn [emit typing stdin fst snd]. unfold unawaited, bind at 1.
  rewrite processUserInput_exit by done. unfold after, typing. simpl.
  by rewrite <- !app_assoc.
Qed.

Lemma exit_ends_session_witness :
  @processUserInput posix "EXIT" (boot [] []) =
  (Ret false, after (boot [] []) [Log [Str "Goodbye!"]; Close]) /\
  exists tail,
    trace (snd (@processUserInput posix "exit now" (boot [] [])))
    = trace (boot [] []) ++ Push (mkTurn user (Plain "exit now"))
        :: Request (chatHistory (boot [] []) ++ [mkTurn user (Plain "exit now")]) :: tail.
Proof.
  split.
  - apply (proj1 (@exit_ends_session posix "EXIT" (boot [] []))). reflexivity.
  - apply (proj2 (@exit_ends_session posix "exit now" (boot [] []))). discriminate.
Defined.

(** ** Direct file creation (C10, C3) *)


Lemma cli_create `{Platform} (argv : list string) (w : World) :
  Js.startsWith (Js.join " " argv) "create " = true ->
  Js.includes (Js.join " " argv) ".txt" = true ->
  exists result w1 evs,
    writeFile
      (JObj [("path", JStr (Js.trim (Js.replace (Js.join " " argv) "create " "")));
             ("content", JStr "")])
      (after w [Log [Str ("Creating file: "
                          +:+ Js.trim (Js.replace (Js.join " " argv) "create " ""))]])
    = (Ret result, w1) /\
    trace w1
    = trace w ++ Log [Str ("Creating file: "
                           +:+ Js.trim (Js.replace (Js.join " " argv) "create " ""))]
              :: Enter "writeFile"
                   (JObj [("path", JStr (Js.trim (Js.replace (Js.join " " argv) "create " "")));
                          ("content", JStr "")])
              :: evs /\
    Forall silent evs /\
    stdin w1 = stdin w /\
    cli argv w = (Halt, after w1 [Log [Str "File creation result:"; Pretty result]; Exit 0]).
Proof.
  intros Hstart Htxt. unfold cli. rewrite Hstart, Htxt. cbn [andb].
  set (filename := Js.trim (Js.replace (Js.join " " argv) "create " "")).
  set (writeArgs := JObj [("path", JStr filename); ("content", JStr "")]).
  set (w0 := after w [Log [Str ("Creating file: " +:+ filename)]]).
  destruct (contains_settles _ _ _ _ _ writeArgs w0 writeFile_contains) as (result & w1 & Hrun).
  destruct (executor_starts writeFile writeFile_try "writeFile" "Failed to write file: "
              writeArgs w0) as (evs & Ht & Hsil); [done | auto with agent |].
  destruct (quiet_writeFile writeArgs w0) as (_ & Hs & _).
  rewrite Hrun in Ht, Hs. simpl in Ht, Hs.
  exists result, w1, evs. split; [done |].
  split; [by rewrite Ht, <- app_assoc |]. split; [done |]. split; [done |].
  unfold bind at 1. cbn [log emit].
  change (mkWorld (disk w) (stdin w) (remote w) (chatHistory w)
            (trace w ++ [Log [Str ("Creating file: " +:+ filename)]])) with w0.
  unfold tryCatch, bind at 1. rewrite Hrun.
  unfold bind, log, exit, emit, halt, after. simpl. by rewrite <- app_assoc.
Qed.



(** [create a.txt and b.txt] makes one file, named [a.txt and b.txt]. *)
Example create_two_names :
  Js.trim (Js.replace (Js.join " " ["create"; "a.txt"; "and"; "b.txt"]) "create " "")
  = "a.txt and b.txt" /\
  disk (snd (@cli posix ["create"; "a.txt"; "and"; "b.txt"] (boot [] [])))
  = {[ "/work" := Directory; "/work/a.txt and b.txt" := File "" ]}.
Proof. split; [reflexivity |]. by vm_compute. Qed.

(** C3, where the code departs from it. [notes.txt] is a directory: the write
    fails, [writeFile] turns the failure into an error payload, the payload is
    printed as the result of the creation and the process exits with code 0. *)
Theorem create_exits_0_when_write_fails :
  let w := mkWorld {[ "/work/notes.txt" := Directory ]} [] [] [] [] in
  fst (@cli posix ["create"; "notes.txt"] w) = Halt /\
  trace (snd (@cli posix ["create"; "notes.txt"] w))
  = [ Log [Str "Creating file: notes.txt"];
      Enter "writeFile" (JObj [("path", JStr "notes.txt"); ("content", JStr "")]);
      Sys (EnsureDir "/work");
      Sys (WriteFile "/work/notes.txt" "");
      Log [Str "File creation result:";
           Pretty (Failed
                     "Failed to write file: EISDIR: illegal operation on a directory, open '/work/notes.txt'")];
      Exit 0 ].
Proof. by vm_compute. Qed.

(** ** Writing, then reading (C8) *)





(** ** The fuel of [askQuestion] is never the reason to stop *)

Lemma consumes_same_stdin {A} (m : M A) :
  (forall w, stdin (snd (m w)) = stdin w) -> Consumes m.
Proof. intros Hm w. by rewrite Hm. Qed.

Lemma consumes_quiet {A} (m : M A) : Quiet m -> Consumes m.
Proof. intros Hq. apply consumes_same_stdin. intros w. by destruct (Hq w) as (_ & Hs & _). Qed.

Lemma consumes_ret {A} (a : A) : Consumes (ret a).
Proof. by apply consumes_same_stdin. Qed.

Lemma consumes_throw {A} e : Consumes (@throw A e).
Proof. by apply consumes_same_stdin. Qed.

Lemma consumes_halt {A} : Consumes (@halt A).
Proof. by apply consumes_same_stdin. Qed.

Lemma consumes_lift {A} (r : JsError + A) : Consumes (lift r).
Proof. destruct r; [apply consumes_throw | apply consumes_ret]. Qed.

Lemma consumes_emit e : Consumes (emit e).
Proof. by apply consumes_same_stdin. Qed.

Lemma consumes_getHistory : Consumes getHistory.
Proof. by apply consumes_same_stdin. Qed.

Lemma consumes_setHistory h : Consumes (setHistory h).
Proof. by apply consumes_same_stdin. Qed.

Lemma consumes_readLine : Consumes readLine.
Proof. intros w. unfold readLine. destruct (stdin w) eqn:E; simpl; rewrite ?E; simpl; lia. Qed.

Lemma consumes_awaitResponse : Consumes awaitResponse.
Proof.
  apply consumes_same_stdin. intros w. unfold awaitResponse. by destruct (remote w).
Qed.

Lemma consumes_bind {A B} (m : M A) (k : A -> M B) :
  Consumes m -> (forall a, Consumes (k a)) -> Consumes (bind m k).
Proof.
  intros Hm Hk w. unfold bind. specialize (Hm w).
  destruct (m w) as [[a|e|] w1]; simpl in *; try done.
  eapply Nat.le_trans; [apply Hk | exact Hm].
Qed.

Lemma consumes_tryCatch {A} (m : M A) (h : JsError -> M A) :
  Consumes m -> (forall e, Consumes (h e)) -> Consumes (tryCatch m h).
Proof.
  intros Hm Hh w. unfold tryCatch. specialize (Hm w).
  destruct (m w) as [[a|e|] w1]; simpl in *; try done.
  eapply Nat.le_trans; [apply Hh | exact Hm].
Qed.

Lemma consumes_unawaited {A} (m : M A) : Consumes m -> Consumes (unawaited m).
Proof.
  intros Hm w. unfold unawaited. specialize (Hm w).
  by destruct (m w) as [[a|e|] w1].
Qed.

Lemma consumes_if {A} (b : bool) (m1 m2 : M A) :
  Consumes m1 -> Consumes m2 -> Consumes (if b then m1 else m2).
Proof. by destruct b. Qed.

#[global] Hint Resolve consumes_ret consumes_throw consumes_halt consumes_lift consumes_emit
  consumes_getHistory consumes_setHistory consumes_readLine consumes_awaitResponse
  consumes_bind consumes_tryCatch consumes_unawaited consumes_if : agent.

Lemma consumes_executeTool `{Platform} toolName args : Consumes (executeTool toolName args).
Proof.
  unfold executeTool. apply consumes_bind; [auto with agent |]. intros _.
  destruct (find _ tools) as [tool|] eqn:Hfind; [| auto with agent].
  apply consumes_tryCatch; [| auto with agent].
  apply find_some in Hfind as [Hin _]. unfold tools in Hin. simpl in Hin.
  destruct Hin as [<-|[<-|[<-|[<-|[]]]]]; simpl.
  - apply consumes_quiet. auto with agent.
  - unfold confirmWriteFile, question, log.
    repeat (apply consumes_bind; [auto with agent |]; intros ?).
    apply consumes_unawaited, consumes_if; [| auto with agent].
    apply consumes_bind; [apply consumes_quiet | ]; auto with agent.
  - apply consumes_quiet. auto with agent.
  - unfold confirmExecuteCommand, question, log.
    repeat (apply consumes_bind; [auto with agent |]; intros ?).
    apply consumes_unawaited, consumes_if; [| auto with agent].
    apply consumes_bind; [apply consumes_quiet | ]; auto with agent.
Qed.

Lemma consumes_consumeStream chunks failure :
  forall aiResponse toolCalls, Consumes (consumeStream chunks failure aiResponse toolCalls).
Proof.
  induction chunks as [|chunk rest IH]; intros aiResponse toolCalls; cbn [consumeStream].
  - destruct failure; auto with agent.
  - apply consumes_bind; [unfold stdoutWrite; auto with agent |]. intros a. apply IH.
Qed.

Lemma consumes_dispatchAll `{Platform} toolCalls : Consumes (dispatchAll toolCalls).
Proof.
  induction toolCalls as [|toolCall rest IH]; cbn [dispatchAll]; [auto with agent |].
  apply consumes_bind; [destruct (args toolCall); simpl; auto with agent |]. intros v.
  apply consumes_bind; [unfold log; auto with agent |]. intros _.
  apply consumes_bind; [apply consumes_executeTool |]. intros r.
  unfold log, push. auto 10 with agent.
Qed.

Lemma consumes_processUserInput `{Platform} userInput : Consumes (processUserInput userInput).
Proof.
  unfold processUserInput, log, logError, rlClose, push, generateContentStream.
  apply consumes_if; [auto 10 with agent |].
  apply consumes_bind; [auto 10 with agent |]. intros _.
  apply consumes_tryCatch; [| auto with agent].
  apply consumes_bind; [auto with agent |]. intros contents.
  apply consumes_bind; [auto with agent |]. intros [e|chunks failure]; [auto with agent |].
  apply consumes_bind; [auto with agent |]. intros _.
  apply consumes_bind; [apply consumes_consumeStream |]. intros [aiResponse toolCalls].
  apply consumes_bind; [auto with agent |]. intros _.
  apply consumes_bind; [auto 10 with agent |]. intros _.
  apply consumes_bind; [| auto with agent].
  apply consumes_if; [| auto with agent].
  apply consumes_bind; [auto with agent |]. intros _. apply consumes_dispatchAll.
Qed.

Lemma askQuestion_round `{Platform} (fuel : nat) (w : World) :
  askQuestion (S fuel) w =
  match stdin w with
  | [] => (Halt, after w [Question (Js.nl +:+ "You: ")])
  | userInput :: lines =>
      unawaited
        (shouldContinue <- processUserInput userInput ;;
         if shouldContinue then askQuestion fuel else ret tt)
        (typing lines (after w [Question (Js.nl +:+ "You: ")]))
  end.
Proof.
  cbn [askQuestion]. unfold question, readLine, bind, emit, after, typing. simpl.
  by destruct (stdin w).
Qed.

(** Any two amounts of fuel above the number of lines left give the same
    session: [startChat] provides enough. *)
Lemma askQuestion_fuel `{Platform} (fuel : nat) :
  forall fuel' w,
    length (stdin w) < fuel -> length (stdin w) < fuel' ->
    askQuestion fuel w = askQuestion fuel' w.
Proof.
  induction fuel as [|fuel IH]; intros [|fuel'] w Hlt Hlt'; try lia.
  rewrite !askQuestion_round.
  destruct (stdin w) as [|userInput lines] eqn:Hin; [done |].
  set (w1 := typing lines _). unfold unawaited, bind.
  pose proof (consumes_processUserInput userInput w1) as Hlen.
  destruct (processUserInput userInput w1) as [[[]|e|] w2]; try done.
  simpl in Hlen, Hlt, Hlt'. rewrite (IH fuel' w2); [done | lia | lia].
Qed.

(** Any other initial message starts the chat. *)
Lemma cli_otherwise `{Platform} argv :
  Js.startsWith (Js.join " " argv) "create " && Js.includes (Js.join " " argv) ".txt" = false ->
  cli argv =
  startChat (if Js.truthy (Js.join " " argv) then Some (Js.join " " argv) else None).
Proof. intros Hno. unfold cli. by rewrite Hno. Qed.

(** With a credential, the module runs [cli]. *)
Lemma main_with_credential `{Platform} apiKey argv :
  apiKey <> "" -> main (Some apiKey) argv = cli argv.
Proof.
  intros Hkey. unfold main, Js.truthy.
  by destruct (String.eqb_spec apiKey "") as [|_].
Qed.

(** * Further properties *)

(** ** Frames *)

Lemma keeps_ret (R : World -> World -> Prop) `{!Reflexive R} {A} (a : A) : Keeps R (ret a).
Proof. intros w. simpl. reflexivity. Qed.

Lemma keeps_throw (R : World -> World -> Prop) `{!Reflexive R} {A} e : Keeps R (@throw A e).
Proof. intros w. simpl. reflexivity. Qed.

Lemma keeps_halt (R : World -> World -> Prop) `{!Reflexive R} {A} : Keeps R (@halt A).
Proof. intros w. simpl. reflexivity. Qed.

Lemma keeps_lift (R : World -> World -> Prop) `{!Reflexive R} {A} (r : JsError + A) :
  Keeps R (lift r).
Proof. destruct r; [by apply keeps_throw | by apply keeps_ret]. Qed.

Lemma keeps_bind (R : World -> World -> Prop) `{!Transitive R} {A B} (m : M A) (k : A -> M B) :
  Keeps R m -> (forall a, Keeps R (k a)) -> Keeps R (bind m k).
Proof.
  intros Hm Hk w. unfold bind. specialize (Hm w).
  destruct (m w) as [[a|e|] w1]; simpl in *; try done.
  etrans; [exact Hm | apply Hk].
Qed.

Lemma keeps_tryCatch (R : World -> World -> Prop) `{!Transitive R} {A} (m : M A)
    (h : JsError -> M A) :
  Keeps R m -> (forall e, Keeps R (h e)) -> Keeps R (tryCatch m h).
Proof.
  intros Hm Hh w. unfold tryCatch. specialize (Hm w).
  destruct (m w) as [[a|e|] w1]; simpl in *; try done.
  etrans; [exact Hm | apply Hh].
Qed.

Lemma keeps_unawaited (R : World -> World -> Prop) {A} (m : M A) :
  Keeps R m -> Keeps R (unawaited m).
Proof.
  intros Hm w. unfold unawaited. specialize (Hm w).
  by destruct (m w) as [[a|e|] w1].
Qed.

Lemma keeps_if (R : World -> World -> Prop) {A} (b : bool) (m1 m2 : M A) :
  Keeps R m1 -> Keeps R m2 -> Keeps R (if b then m1 else m2).
Proof. by destruct b. Qed.

Lemma keeps_weaken (R R' : World -> World -> Prop) {A} (m : M A) :
  (forall w w', R w w' -> R' w w') -> Keeps R m -> Keeps R' m.
Proof. intros Hsub Hm w. apply Hsub, Hm. Qed.

#[global] Instance sameDisk_preorder : PreOrder sameDisk.
Proof.
  split; [by intros w |].
  intros w1 w2 w3 [Hd1 Hs1] [Hd2 Hs2]. split; congruence.
Qed.

#[global] Instance unapproved_preorder : PreOrder unapproved.
Proof.
  split.
  - intros w. split; [by exists [] | done].
  - intros w1 w2 w3 [[u1 Hu1] Hd1] [[u2 Hu2] Hd2]. split.
    + exists (u1 ++ u2). by rewrite Hu1, Hu2, app_assoc.
    + intros Hno. rewrite Hd2, Hd1; [done | done |].
      unfold noYes in *. rewrite Hu1 in Hno. by apply Forall_app in Hno as [_ ?].
Qed.

#[global] Instance grownHistory_preorder : PreOrder grownHistory.
Proof.
  split; [intros w; exists []; by rewrite app_nil_r |].
  intros w1 w2 w3 [a1 H1] [a2 H2]. exists (a1 ++ a2). by rewrite H2, H1, app_assoc.
Qed.

#[global] Instance noRequest_preorder : PreOrder noRequest.
Proof.
  split; [intros w; exists []; by rewrite app_nil_r |].
  intros w1 w2 w3 (e1 & H1 & F1) (e2 & H2 & F2). exists (e1 ++ e2).
  split; [by rewrite H2, H1, app_assoc | by rewrite List.filter_app, F1, F2].
Qed.

Lemma sameDisk_unapproved w w' : sameDisk w w' -> unapproved w w'.
Proof. intros [Hd Hs]. split; [exists []; by rewrite Hs | done]. Qed.

Create HintDb frames.

Ltac frame :=
  repeat first
    [ solve [auto with frames]
    | apply keeps_ret; apply _
    | apply keeps_throw; apply _
    | apply keeps_halt; apply _
    | apply keeps_lift; apply _
    | apply keeps_bind; [apply _ | | intros ?]
    | apply keeps_tryCatch; [apply _ | | intros ?]
    | apply keeps_unawaited
    | apply keeps_if ].

(** ** The tools that only read *)

Lemma sameDisk_emit e : Keeps sameDisk (emit e).
Proof. by intros w. Qed.

Lemma sameDisk_getDisk : Keeps sameDisk getDisk.
Proof. by intros w. Qed.

Lemma sameDisk_getHistory : Keeps sameDisk getHistory.
Proof. by intros w. Qed.

Lemma sameDisk_setHistory h : Keeps sameDisk (setHistory h).
Proof. by intros w. Qed.

Lemma sameDisk_awaitResponse : Keeps sameDisk awaitResponse.
Proof. intros w. unfold awaitResponse. by destruct (remote w). Qed.

Lemma sameDisk_resolve `{Platform} p : Keeps sameDisk (resolve p).
Proof. destruct p; simpl; frame. Qed.

#[global] Hint Resolve sameDisk_emit sameDisk_getDisk sameDisk_getHistory sameDisk_setHistory
  sameDisk_awaitResponse sameDisk_resolve : frames.

Lemma sameDisk_fs_readFile filePath : Keeps sameDisk (fs_readFile filePath).
Proof. unfold fs_readFile. frame. destruct (_ !! filePath) as [[]|]; frame. Qed.

Lemma sameDisk_fs_readdir `{Platform} dirPath : Keeps sameDisk (fs_readdir dirPath).
Proof. unfold fs_readdir. frame. destruct (_ !! dirPath) as [[]|]; frame. Qed.

#[global] Hint Resolve sameDisk_fs_readFile sameDisk_fs_readdir : frames.

Lemma sameDisk_readFile `{Platform} args : Keeps sameDisk (readFile args).
Proof. unfold readFile, readFile_try. frame. Qed.

Lemma sameDisk_listFiles `{Platform} args : Keeps sameDisk (listFiles args).
Proof. unfold listFiles, listFiles_try. frame. Qed.

#[global] Hint Resolve sameDisk_readFile sameDisk_listFiles : frames.

(** ** No approval, no change on the disk *)

Lemma sameDisk_log line : Keeps sameDisk (log line).
Proof. by intros w. Qed.

Lemma sameDisk_logError line : Keeps sameDisk (logError line).
Proof. by intros w. Qed.

Lemma sameDisk_stdoutWrite chars : Keeps sameDisk (stdoutWrite chars).
Proof. by intros w. Qed.

Lemma sameDisk_rlClose : Keeps sameDisk rlClose.
Proof. by intros w. Qed.

Lemma sameDisk_push t : Keeps sameDisk (push t).
Proof. by intros w. Qed.

Lemma sameDisk_generateContentStream contents : Keeps sameDisk (generateContentStream contents).
Proof. unfold generateContentStream. frame. Qed.

Lemma sameDisk_JSON_parse t : Keeps sameDisk (JSON_parse t).
Proof. destruct t; simpl; frame. Qed.

#[global] Hint Resolve sameDisk_log sameDisk_logError sameDisk_stdoutWrite sameDisk_rlClose
  sameDisk_push sameDisk_generateContentStream sameDisk_JSON_parse : frames.

Lemma sameDisk_consumeStream chunks failure :
  forall aiResponse toolCalls,
    Keeps sameDisk (consumeStream chunks failure aiResponse toolCalls).
Proof.
  induction chunks as [|chunk rest IH]; intros aiResponse toolCalls; cbn [consumeStream].
  - destruct failure; frame.
  - apply keeps_bind; [apply _ | frame |]. intros a. apply IH.
Qed.

#[global] Hint Resolve sameDisk_consumeStream : frames.

Lemma unapproved_still {A} (m : M A) : Keeps sameDisk m -> Keeps unapproved m.
Proof. apply keeps_weaken, sameDisk_unapproved. Qed.

Lemma unapproved_readLine : Keeps unapproved readLine.
Proof.
  intros w. unfold readLine. destruct (stdin w) as [|answer rest] eqn:Hin; simpl.
  - reflexivity.
  - split; [exists [answer]; by rewrite Hin | done].
Qed.

Lemma unapproved_question query : Keeps unapproved (question query).
Proof.
  unfold question. apply keeps_bind; [apply _ | | intros _; apply unapproved_readLine].
  apply unapproved_still. frame.
Qed.

Lemma talks_sameDisk {A} (m : M A) : Talks m -> Keeps sameDisk m.
Proof. intros Ht w. destruct (Ht w) as (_ & evs & -> & _). by split. Qed.

Lemma unapproved_gated (preview : M unit) (exec : JValue -> M ToolResult) cancelled args :
  Talks preview -> Quiet (exec args) ->
  Keeps unapproved (gated preview exec cancelled args).
Proof.
  intros Hpre Hexec. unfold gated.
  apply keeps_bind; [apply _ | by apply unapproved_still, talks_sameDisk |]. intros _.
  intros w. unfold bind, question, readLine, bind. simpl.
  destruct (stdin w) as [|answer rest] eqn:Hin; simpl.
  - split; [by exists []; rewrite Hin | done].
  - set (asked := mkWorld _ rest _ _ _). unfold unawaited.
    destruct (String.eqb (Js.toLowerCase answer) "yes"
              || String.eqb (Js.toLowerCase answer) "y") eqn:Htest.
    + apply affirmative_test in Htest.
      pose proof (Hexec asked) as Hq. unfold bind, ret.
      destruct (exec args asked) as [[r|e|] w']; destruct Hq as (_ & Hs & _);
        simpl in *; subst asked; simpl in *;
        (split; [exists [answer]; by rewrite Hin, Hs |]);
        intros Hno; rewrite Hin in Hno; by apply Forall_cons in Hno as [Hno _].
    + simpl. split; [exists [answer]; by rewrite Hin | done].
Qed.

Lemma unapproved_tool `{Platform} tool args : tool ∈ tools -> Keeps unapproved (execute tool args).
Proof.
  intros Hin. unfold tools in Hin.
  repeat (apply elem_of_cons in Hin as [->|Hin]); [| | | | by apply elem_of_nil in Hin]; simpl.
  - apply unapproved_still. frame.
  - intros w. rewrite confirmWriteFile_gated.
    apply unapproved_gated; [apply talks_previewWriteFile | auto with agent].
  - apply unapproved_still. frame.
  - intros w. rewrite confirmExecuteCommand_gated.
    apply unapproved_gated; [apply talks_previewExecuteCommand | auto with agent].
Qed.

Lemma unapproved_executeTool `{Platform} toolName args :
  Keeps unapproved (executeTool toolName args).
Proof.
  unfold executeTool.
  apply keeps_bind; [apply _ | apply unapproved_still; frame |]. intros _.
  destruct (find _ tools) as [tool|] eqn:Hfind; [| frame].
  apply find_some in Hfind as [Hin _]. apply list_elem_of_In in Hin.
  apply keeps_tryCatch; [apply _ | by apply unapproved_tool | intros e; frame].
Qed.

Lemma unapproved_dispatchAll `{Platform} toolCalls : Keeps unapproved (dispatchAll toolCalls).
Proof.
  induction toolCalls as [|toolCall rest IH]; cbn [dispatchAll]; [frame |].
  apply keeps_bind; [apply _ | apply unapproved_still; frame |]. intros v.
  apply keeps_bind; [apply _ | apply unapproved_still; frame |]. intros _.
  apply keeps_bind; [apply _ | apply unapproved_executeTool |]. intros r.
  apply keeps_bind; [apply _ | apply unapproved_still; frame |]. intros _.
  apply keeps_bind; [apply _ | apply unapproved_still; frame |]. intros _.
  apply IH.
Qed.

Lemma unapproved_processUserInput `{Platform} userInput :
  Keeps unapproved (processUserInput userInput).
Proof.
  unfold processUserInput. apply keeps_if; [apply unapproved_still; frame |].
  apply keeps_bind; [apply _ | apply unapproved_still; frame |]. intros _.
  apply keeps_tryCatch; [apply _ | | intros e; apply unapproved_still; frame].
  apply keeps_bind; [apply _ | apply unapproved_still; frame |]. intros contents.
  apply keeps_bind; [apply _ | apply unapproved_still; frame |].
  intros [e|chunks failure]; [frame |].
  apply keeps_bind; [apply _ | apply unapproved_still; frame |]. intros _.
  apply keeps_bind; [apply _ | apply unapproved_still; frame |]. intros [aiResponse toolCalls].
  apply keeps_bind; [apply _ | apply unapproved_still; frame |]. intros _.
  apply keeps_bind; [apply _ | apply unapproved_still; frame |]. intros _.
  apply keeps_bind; [apply _ | | intros _; frame].
  apply keeps_if; [| frame].
  apply keeps_bind; [apply _ | apply unapproved_still; frame |]. intros _.
  apply unapproved_dispatchAll.
Qed.

Lemma unapproved_askQuestion `{Platform} fuel : Keeps unapproved (askQuestion fuel).
Proof.
  induction fuel as [|fuel IH]; cbn [askQuestion]; [frame |].
  apply keeps_bind; [apply _ | apply unapproved_question |]. intros userInput.
  apply keeps_unawaited.
  apply keeps_bind; [apply _ | apply unapproved_processUserInput |]. intros [|]; [apply IH | frame].
Qed.

Lemma unapproved_startChat `{Platform} initialMessage : Keeps unapproved (startChat initialMessage).
Proof.
  unfold startChat.
  apply keeps_bind; [apply _ | apply unapproved_still; frame |]. intros _.
  apply keeps_bind; [apply _ | apply unapproved_still; frame |]. intros _.
  apply keeps_bind; [apply _ | |].
  - destruct initialMessage as [m|]; [| frame].
    apply keeps_if; [| frame].
    apply keeps_bind; [apply _ | apply unapproved_still; frame |]. intros _.
    apply unapproved_processUserInput.
  - intros [|]; [| frame]. intros w. apply unapproved_askQuestion.
Qed.

(** X1. In a chat session the disk changes only after an approval: when none
    of the lines the user types is [yes] or [y] (in any case), the disk at
    the end of [startChat] is the disk at its start, whatever the remote
    model asks the tools to do. *)
Theorem chat_without_yes_keeps_disk `{Platform} (initialMessage : option string) (w : World) :
  noYes (stdin w) ->
  disk (snd (startChat initialMessage w)) = disk w.
Proof. intros Hno. by apply (unapproved_startChat initialMessage w). Qed.

Lemma chat_without_yes_keeps_disk_witness :
  let w :=
    mkWorld {[ "/work/a.txt" := File "old" ]} ["overwrite a.txt"; "no"; "exit"]
      [Streamed
         [mkChunk "On it." (Some
            [mkToolCall "writeFile"
               (Denotes (JObj [("path", JStr "a.txt"); ("content", JStr "new")]))])]
         None] [] [] in
  disk (snd (@startChat posix None w)) = disk w.
Proof.
  apply (@chat_without_yes_keeps_disk posix).
  repeat constructor; intros [Hyes|Hyes]; discriminate Hyes.
Defined.

Lemma tryCatch_ret_world {A} (m : M A) (f : JsError -> A) w :
  snd (tryCatch m (fun error => ret (f error)) w) = snd (m w).
Proof. unfold tryCatch. by destruct (m w) as [[a|e|] w']. Qed.

Lemma tryCatch_ret_settles {A} (m : M A) (f : JsError -> A) w :
  fst (m w) <> Halt -> exists r, fst (tryCatch m (fun error => ret (f error)) w) = Ret r.
Proof. unfold tryCatch. destruct (m w) as [[a|e|] w']; simpl; eauto. done. Qed.

(** X2. A dispatch to [readFile], to [listFiles] or to a name that is not
    registered answers without the user: it returns a result even when no
    input is left, shows no prompt, reads no line and leaves the disk as it
    is. *)
Theorem reading_tools_never_ask `{Platform} (toolName : string) (args : JValue) (w : World) :
  toolName <> "writeFile" -> toolName <> "executeCommand" ->
  exists r w' evs,
    executeTool toolName args w = (Ret r, w') /\
    trace w' = trace w ++ Dispatch toolName args :: evs /\
    Forall silent evs /\
    stdin w' = stdin w /\
    disk w' = disk w.
Proof.
  intros Hw He.
  assert (forall exec : JValue -> M ToolResult,
             Quiet (exec args) -> Keeps sameDisk (exec args) ->
             exists r w' evs,
               tryCatch (exec args)
                 (fun error =>
                    ret (Failed ("Failed to execute tool " +:+ toolName +:+ ": "
                                 +:+ message error)))
                 (dispatched toolName args w) = (Ret r, w') /\
               trace w' = trace w ++ Dispatch toolName args :: evs /\
               Forall silent evs /\ stdin w' = stdin w /\ disk w' = disk w) as Hread.
  { intros exec Hq Hs.
    destruct (Hq (dispatched toolName args w)) as (Hn & _ & _ & _ & evs & Ht & Hsil).
    destruct (Hs (dispatched toolName args w)) as [Hd Hin].
    unfold tryCatch.
    destruct (exec args (dispatched toolName args w)) as [[r|e|] w1]; simpl in *; [| | done].
    - exists r, w1, evs. by rewrite Ht, <- app_assoc.
    - eexists _, w1, evs. by rewrite Ht, <- app_assoc. }
  destruct (decide (toolName ∈ tool_name <$> tools)) as [Hin|Hnot].
  - apply list_elem_of_fmap in Hin as (tool & -> & Hin).
    rewrite executeTool_known by done. unfold tools in Hin.
    repeat (apply elem_of_cons in Hin as [->|Hin]); [| done | | done | by apply elem_of_nil in Hin].
    + apply (Hread readFile); [auto with agent | frame].
    + apply (Hread listFiles); [auto with agent | frame].
  - rewrite executeTool_unknown by done. eexists _, _, []. by repeat split.
Qed.

Lemma reading_tools_never_ask_witness :
  let w := mkWorld {[ "/work" := Directory; "/work/a.txt" := File "A" ]} [] [] [] [] in
  exists r w' evs,
    @executeTool posix "listFiles" (JObj [("directory", JStr "/work")]) w = (Ret r, w') /\
    trace w' = trace w ++ Dispatch "listFiles" (JObj [("directory", JStr "/work")]) :: evs /\
    Forall silent evs /\
    stdin w' = stdin w /\
    disk w' = disk w.
Proof.
  intros w.
  apply (@reading_tools_never_ask posix "listFiles" (JObj [("directory", JStr "/work")]) w);
    discriminate.
Defined.

(** ** What [writeFile] does to the disk *)



(** X4. Whatever its arguments and whether it succeeds or fails, [writeFile]
    leaves every entry of the disk other than its target as it is: it deletes
    nothing and overwrites nothing else. *)
Theorem writeFile_touches_only_its_target `{Platform} (args : JValue) (w : World)
    (other : string) (node : Node) :
  disk w !! other = Some node ->
  (forall path, getProp args "path" = inr (JStr path) -> other <> path_resolve path) ->
  disk (snd (writeFile args w)) !! other = Some node.
Proof.
  intros Hother Hnot.
  unfold writeFile, writeFile_try, fs_ensureDir, fs_writeFile, resolve, getDisk, setDisk,
    emit, lift, ret, throw, tryCatch, bind.
  cbn -[lookup insert getProp].
  destruct (getProp args "path") as [e|p] eqn:Hp; cbn -[lookup insert getProp]; [done |].
  destruct p as [| | | |path| |]; cbn -[lookup insert getProp]; try done.
  specialize (Hnot path eq_refl).
  repeat (case_match; simplify_eq; cbn -[lookup insert getProp] in * ); try done;
    repeat (rewrite lookup_insert_ne;
            [| first [done | intros ->; congruence | intros <-; congruence]]);
    done.
Qed.

Lemma writeFile_touches_only_its_target_witness :
  let w := mkWorld {[ "/work/a.txt" := File "old"; "/work/b.txt" := Directory ]} [] [] [] [] in
  disk (snd (@writeFile posix (JObj [("path", JStr "b.txt"); ("content", JStr "B")]) w))
    !! "/work/a.txt" = Some (File "old").
Proof.
  intros w.
  apply (@writeFile_touches_only_its_target posix
           (JObj [("path", JStr "b.txt"); ("content", JStr "B")]) w "/work/a.txt" (File "old")).
  - by vm_compute.
  - intros path [= <-]. discriminate.
Defined.

(** ** Calm computations *)

Lemma filter_or_nil {A} (f g : A -> bool) (l : list A) :
  List.filter (fun x => f x || g x) l = [] -> List.filter f l = [] /\ List.filter g l = [].
Proof.
  induction l as [|x l IH]; [done |]. simpl.
  destruct (f x), (g x); simpl; done.
Qed.

Lemma loud_nil (evs : list Event) :
  List.filter loud evs = [] ->
  List.filter isRun evs = [] /\ List.filter isRequest evs = [] /\ List.filter isPush evs = [].
Proof.
  intros Hl. unfold loud in Hl.
  apply (filter_or_nil (fun e => isRun e || isRequest e) isPush) in Hl as [Hl Hp].
  apply (filter_or_nil isRun isRequest) in Hl as [Hr Hq]. done.
Qed.

Lemma filter_isLog_nil (f : Event -> bool) (evs : list Event) :
  (forall line, f (Log line) = false) -> Forall isLog evs -> List.filter f evs = [].
Proof.
  intros Hf. induction 1 as [|e evs He _ IH]; [done |].
  simpl. destruct e; try done. by rewrite Hf.
Qed.

#[global] Instance calm_preorder : PreOrder calm.
Proof.
  split.
  - intros w. repeat split. exists []. by rewrite app_nil_r.
  - intros w1 w2 w3 (S1 & R1 & C1 & e1 & T1 & F1) (S2 & R2 & C2 & e2 & T2 & F2).
    repeat split; try congruence. exists (e1 ++ e2).
    split; [by rewrite T2, T1, app_assoc | by rewrite List.filter_app, F1, F2].
Qed.

#[global] Instance toolStep_preorder : PreOrder toolStep.
Proof.
  split.
  - intros w. repeat split. exists [], []. by rewrite app_nil_r.
  - intros w1 w2 w3 (R1 & C1 & u1 & e1 & S1 & T1 & Q1 & P1 & N1)
      (R2 & C2 & u2 & e2 & S2 & T2 & Q2 & P2 & N2).
    repeat split; try congruence. exists (u1 ++ u2), (e1 ++ e2).
    rewrite !List.filter_app, Q1, Q2, P1, P2, !length_app.
    repeat split; try done; [by rewrite S1, S2, app_assoc | by rewrite T2, T1, app_assoc | lia].
Qed.

#[global] Instance accounted_preorder : PreOrder accounted.
Proof.
  split.
  - intros w. exists [], []. by rewrite app_nil_r.
  - intros w1 w2 w3 (u1 & e1 & S1 & T1 & N1) (u2 & e2 & S2 & T2 & N2).
    exists (u1 ++ u2), (e1 ++ e2). rewrite !List.filter_app, !length_app.
    repeat split; [by rewrite S1, S2, app_assoc | by rewrite T2, T1, app_assoc | lia].
Qed.

#[global] Instance loopStep_preorder : PreOrder loopStep.
Proof.
  split; [by split |]. intros w1 w2 w3 [G1 A1] [G2 A2]. split; by etrans.
Qed.

Lemma calm_toolStep w w' : calm w w' -> toolStep w w'.
Proof.
  intros (Hs & Hr & Hc & evs & Ht & Hl). apply loud_nil in Hl as (Hrun & Hq & Hp).
  repeat split; try done. exists [], evs. by rewrite Hs, Hrun.
Qed.

Lemma toolStep_loopStep w w' : toolStep w w' -> loopStep w w'.
Proof.
  intros (Hr & Hc & used & evs & Hs & Ht & _ & _ & Hn). split.
  - exists []. by rewrite app_nil_r.
  - by exists used, evs.
Qed.

Lemma toolStep_noRequest w w' : toolStep w w' -> noRequest w w'.
Proof. intros (_ & _ & used & evs & _ & Ht & Hq & _). by exists evs. Qed.

Lemma calm_emit e : loud e = false -> Keeps calm (emit e).
Proof. intros He w. repeat split. exists [e]. simpl. by rewrite He. Qed.

Lemma calm_getDisk : Keeps calm getDisk.
Proof. intros w. reflexivity. Qed.

Lemma calm_setDisk d : Keeps calm (setDisk d).
Proof. intros w. repeat split. exists []. simpl. by rewrite app_nil_r. Qed.

Lemma calm_getHistory : Keeps calm getHistory.
Proof. intros w. reflexivity. Qed.

Lemma calm_log line : Keeps calm (log line).
Proof. by apply calm_emit. Qed.

Lemma calm_logError line : Keeps calm (logError line).
Proof. by apply calm_emit. Qed.

Lemma calm_stdoutWrite chars : Keeps calm (stdoutWrite chars).
Proof. by apply calm_emit. Qed.

Lemma calm_rlClose : Keeps calm rlClose.
Proof. by apply calm_emit. Qed.

Lemma calm_sys call : Keeps calm (emit (Sys call)).
Proof. by apply calm_emit. Qed.

Lemma calm_dispatch toolName args : Keeps calm (emit (Dispatch toolName args)).
Proof. by apply calm_emit. Qed.

Lemma calm_question_shown query : Keeps calm (emit (Question query)).
Proof. by apply calm_emit. Qed.

Lemma calm_JSON_parse t : Keeps calm (JSON_parse t).
Proof. destruct t; simpl; frame. Qed.

Lemma calm_resolve `{Platform} p : Keeps calm (resolve p).
Proof. destruct p; simpl; frame. Qed.

#[global] Hint Resolve calm_getDisk calm_setDisk calm_getHistory calm_log calm_logError
  calm_stdoutWrite calm_rlClose calm_sys calm_dispatch calm_question_shown calm_JSON_parse
  calm_resolve : frames.

Lemma calm_fs_readFile filePath : Keeps calm (fs_readFile filePath).
Proof. unfold fs_readFile. frame. destruct (_ !! filePath) as [[]|]; frame. Qed.

Lemma calm_fs_ensureDir dir : Keeps calm (fs_ensureDir dir).
Proof. unfold fs_ensureDir. frame. destruct (_ !! dir) as [[]|]; frame. Qed.

Lemma calm_fs_writeFile filePath data : Keeps calm (fs_writeFile filePath data).
Proof.
  unfold fs_writeFile. destruct data; frame. destruct (_ !! filePath) as [[]|]; frame.
Qed.

Lemma calm_fs_readdir `{Platform} dirPath : Keeps calm (fs_readdir dirPath).
Proof. unfold fs_readdir. frame. destruct (_ !! dirPath) as [[]|]; frame. Qed.

Lemma calm_execSync `{Platform} command : Keeps calm (execSync command).
Proof. unfold execSync. destruct command; frame. destruct (shell _ _) as [r d']. frame. Qed.

#[global] Hint Resolve calm_fs_readFile calm_fs_ensureDir calm_fs_writeFile calm_fs_readdir
  calm_execSync : frames.

Lemma calm_readFile_try `{Platform} args : Keeps calm (readFile_try args).
Proof. unfold readFile_try. frame. Qed.

Lemma calm_writeFile_try `{Platform} args : Keeps calm (writeFile_try args).
Proof. unfold writeFile_try. frame. Qed.

Lemma calm_listFiles_try `{Platform} args : Keeps calm (listFiles_try args).
Proof. unfold listFiles_try. frame. Qed.

Lemma calm_executeCommand_try `{Platform} args : Keeps calm (executeCommand_try args).
Proof. unfold executeCommand_try. frame. Qed.

#[global] Hint Resolve calm_readFile_try calm_writeFile_try calm_listFiles_try
  calm_executeCommand_try : frames.

Lemma calm_readFile `{Platform} args : Keeps calm (readFile args).
Proof. unfold readFile. apply keeps_bind; [apply _ | by apply calm_emit |]. intros _. frame. Qed.

Lemma calm_listFiles `{Platform} args : Keeps calm (listFiles args).
Proof. unfold listFiles. apply keeps_bind; [apply _ | by apply calm_emit |]. intros _. frame. Qed.

Lemma calm_consumeStream chunks failure :
  forall aiResponse toolCalls, Keeps calm (consumeStream chunks failure aiResponse toolCalls).
Proof.
  induction chunks as [|chunk rest IH]; intros aiResponse toolCalls; cbn [consumeStream].
  - destruct failure; frame.
  - apply keeps_bind; [apply _ | frame |]. intros a. apply IH.
Qed.

#[global] Hint Resolve calm_readFile calm_listFiles calm_consumeStream : frames.

(** ** What a tool may do *)

Lemma toolStep_calm {A} (m : M A) : Keeps calm m -> Keeps toolStep m.
Proof. apply keeps_weaken, calm_toolStep. Qed.

Lemma unawaited_bind_ret_world {A} (m : M A) w :
  snd (unawaited (bind m (fun result => ret result)) w) = snd (m w).
Proof. unfold unawaited, bind. by destruct (m w) as [[a|e|] w']. Qed.

Lemma executor_world (exec body : JValue -> M ToolResult) executor prefix args w :
  exec args =
    (emit (Enter executor args) ;;
     tryCatch (body args) (fun error => ret (Failed (prefix +:+ message error)))) ->
  snd (exec args w) = snd (body args (entered executor args w)).
Proof. intros ->. unfold bind. simpl. apply tryCatch_ret_world. Qed.

Lemma question_run query w :
  question query w =
  match stdin w with
  | [] => (Halt, after w [Question query])
  | answer :: rest => (Ret answer, typing rest (after w [Question query]))
  end.
Proof. unfold question, readLine, bind, emit, after, typing. simpl. by destruct (stdin w). Qed.

Lemma talks_calm {A} (m : M A) : Talks m -> Keeps calm m.
Proof.
  intros Ht w. destruct (Ht w) as (_ & evs & -> & Hl). repeat split.
  exists evs. split; [done |]. by apply filter_isLog_nil.
Qed.

Lemma toolStep_gated (preview : M unit) (exec : JValue -> M ToolResult) executor cancelled args :
  Talks preview ->
  (forall w, calm (entered executor args w) (snd (exec args w))) ->
  Keeps toolStep (gated preview exec cancelled args).
Proof.
  intros Hpre Hexec. unfold gated.
  apply keeps_bind; [apply _ | by apply toolStep_calm, talks_calm |]. intros _ w.
  unfold bind at 1. rewrite question_run.
  destruct (stdin w) as [|answer rest] eqn:Hin.
  - repeat split. exists [], [Question confirmQuery]. by rewrite Hin.
  - set (asked := typing rest _).
    destruct (String.eqb (Js.toLowerCase answer) "yes"
              || String.eqb (Js.toLowerCase answer) "y") eqn:Htest.
    + rewrite unawaited_bind_ret_world.
      destruct (Hexec asked) as (Hs & Hrem & Hc & evs' & Ht & Hloud).
      apply loud_nil in Hloud as (Hr' & Hq' & Hp').
      repeat split; [done | done |].
      exists [answer], (Question confirmQuery :: Enter executor args :: evs').
      cbn [List.filter isRequest isPush]. rewrite Hq', Hp'. repeat split; try done.
      * by rewrite Hs, Hin.
      * rewrite Ht. subst asked. simpl. by rewrite <- !app_assoc.
      * cbn [List.filter isYes]. unfold isYes. rewrite Htest. simpl.
        destruct (String.eqb executor "writeFile" || String.eqb executor "executeCommand");
          rewrite Hr'; simpl; lia.
    + simpl. repeat split. exists [answer], [Question confirmQuery].
      rewrite Hin. simpl. repeat split; try done. lia.
Qed.

Lemma toolStep_tool `{Platform} tool args : tool ∈ tools -> Keeps toolStep (execute tool args).
Proof.
  intros Hin. unfold tools in Hin.
  repeat (apply elem_of_cons in Hin as [->|Hin]); [| | | | by apply elem_of_nil in Hin]; simpl.
  - apply toolStep_calm. frame.
  - intros w. rewrite confirmWriteFile_gated.
    apply (toolStep_gated _ _ "writeFile"); [apply talks_previewWriteFile |].
    intros w0.
    rewrite (executor_world writeFile writeFile_try "writeFile" "Failed to write file: ")
      by done.
    apply calm_writeFile_try.
  - apply toolStep_calm. frame.
  - intros w. rewrite confirmExecuteCommand_gated.
    apply (toolStep_gated _ _ "executeCommand"); [apply talks_previewExecuteCommand |].
    intros w0.
    rewrite (executor_world executeCommand executeCommand_try "executeCommand"
               "Command execution failed: ") by done.
    apply calm_executeCommand_try.
Qed.

Lemma toolStep_executeTool `{Platform} toolName args :
  Keeps toolStep (executeTool toolName args).
Proof.
  unfold executeTool.
  apply keeps_bind; [apply _ | apply toolStep_calm; frame |]. intros _.
  destruct (find _ tools) as [tool|] eqn:Hfind; [| frame].
  apply find_some in Hfind as [Hin _]. apply list_elem_of_In in Hin.
  apply keeps_tryCatch; [apply _ | by apply toolStep_tool | intros e; frame].
Qed.

(** X5. The tools stay out of the conversation: whatever the tool name and
    the arguments, a dispatch leaves [chatHistory] and the pending responses
    of the remote model as they are, sends no request and appends no turn. *)
Theorem tools_leave_conversation_alone `{Platform} (toolName : string) (args : JValue)
    (w : World) :
  chatHistory (snd (executeTool toolName args w)) = chatHistory w /\
  remote (snd (executeTool toolName args w)) = remote w /\
  exists evs,
    trace (snd (executeTool toolName args w)) = trace w ++ evs /\
    List.filter isRequest evs = [] /\
    List.filter isPush evs = [].
Proof.
  destruct (toolStep_executeTool toolName args w)
    as (Hr & Hc & used & evs & _ & Ht & Hq & Hp & _).
  repeat split; try done. by exists evs.
Qed.

(** ** What the chat loop keeps *)

Lemma loopStep_tool {A} (m : M A) : Keeps toolStep m -> Keeps loopStep m.
Proof. apply keeps_weaken, toolStep_loopStep. Qed.

Lemma loopStep_calm {A} (m : M A) : Keeps calm m -> Keeps loopStep m.
Proof. intros Hm. by apply loopStep_tool, toolStep_calm. Qed.

Lemma loopStep_push t : Keeps loopStep (push t).
Proof.
  intros w. split; [by exists [t] |]. exists [], [Push t]. simpl. by repeat split.
Qed.

Lemma loopStep_generateContentStream contents : Keeps loopStep (generateContentStream contents).
Proof.
  intros w. unfold generateContentStream, awaitResponse, bind. simpl.
  destruct (remote w); simpl; (split; [exists []; by rewrite app_nil_r |]);
    exists [], [Request contents]; simpl; by repeat split.
Qed.

Lemma loopStep_dispatchAll `{Platform} toolCalls : Keeps loopStep (dispatchAll toolCalls).
Proof.
  induction toolCalls as [|toolCall rest IH]; cbn [dispatchAll]; [frame |].
  apply keeps_bind; [apply _ | apply loopStep_calm; frame |]. intros v.
  apply keeps_bind; [apply _ | apply loopStep_calm; frame |]. intros _.
  apply keeps_bind; [apply _ | apply loopStep_tool, toolStep_executeTool |]. intros r.
  apply keeps_bind; [apply _ | apply loopStep_calm; frame |]. intros _.
  apply keeps_bind; [apply _ | apply loopStep_push |]. intros _.
  apply IH.
Qed.

Lemma loopStep_processUserInput `{Platform} userInput :
  Keeps loopStep (processUserInput userInput).
Proof.
  unfold processUserInput. apply keeps_if; [apply loopStep_calm; frame |].
  apply keeps_bind; [apply _ | apply loopStep_push |]. intros _.
  apply keeps_tryCatch; [apply _ | | intros e; apply loopStep_calm; frame].
  apply keeps_bind; [apply _ | apply loopStep_calm; frame |]. intros contents.
  apply keeps_bind; [apply _ | apply loopStep_generateContentStream |].
  intros [e|chunks failure]; [frame |].
  apply keeps_bind; [apply _ | apply loopStep_calm; frame |]. intros _.
  apply keeps_bind; [apply _ | apply loopStep_calm; frame |]. intros [aiResponse toolCalls].
  apply keeps_bind; [apply _ | apply loopStep_calm; frame |]. intros _.
  apply keeps_bind; [apply _ | apply loopStep_push |]. intros _.
  apply keeps_bind; [apply _ | | intros _; frame].
  apply keeps_if; [| frame].
  apply keeps_bind; [apply _ | apply loopStep_calm; frame |]. intros _.
  apply loopStep_dispatchAll.
Qed.

Lemma toolStep_question query : Keeps toolStep (question query).
Proof.
  intros w. rewrite question_run. destruct (stdin w) as [|answer rest] eqn:Hin; simpl.
  - repeat split. exists [], [Question query]. by rewrite Hin.
  - repeat split. exists [answer], [Question query]. rewrite Hin. simpl.
    repeat split; try done. lia.
Qed.

Lemma loopStep_askQuestion `{Platform} fuel : Keeps loopStep (askQuestion fuel).
Proof.
  induction fuel as [|fuel IH]; cbn [askQuestion]; [frame |].
  apply keeps_bind; [apply _ | apply loopStep_tool, toolStep_question |]. intros userInput.
  apply keeps_unawaited.
  apply keeps_bind; [apply _ | apply loopStep_processUserInput |]. intros [|]; [apply IH | frame].
Qed.

(** X6. The conversation is append-only while the loop runs: whatever the
    user types and whatever the remote model and the tools do, the history
    after [askQuestion] (and after one [processUserInput]) is the history
    before, followed by the turns added. *)
Theorem conversation_only_grows `{Platform} (fuel : nat) (userInput : string) (w : World) :
  (exists added, chatHistory (snd (askQuestion fuel w)) = chatHistory w ++ added) /\
  (exists added, chatHistory (snd (processUserInput userInput w)) = chatHistory w ++ added).
Proof.
  split; [apply (loopStep_askQuestion fuel w) | apply (loopStep_processUserInput userInput w)].
Qed.

Lemma accounted_loop {A} (m : M A) : Keeps loopStep m -> Keeps accounted m.
Proof. apply keeps_weaken. by intros w w' [_ ?]. Qed.

Lemma accounted_startChat `{Platform} initialMessage : Keeps accounted (startChat initialMessage).
Proof.
  unfold startChat.
  apply keeps_bind; [apply _ | apply accounted_loop, loopStep_calm; frame |]. intros _.
  apply keeps_bind; [apply _ | |].
  { intros w. exists [], []. simpl. by rewrite app_nil_r. }
  intros _. apply keeps_bind; [apply _ | |].
  - destruct initialMessage as [m|]; [| frame].
    apply keeps_if; [| frame].
    apply keeps_bind; [apply _ | apply accounted_loop, loopStep_calm; frame |]. intros _.
    apply accounted_loop, loopStep_processUserInput.
  - intros [|]; [| frame]. intros w. apply accounted_loop, loopStep_askQuestion.
Qed.

(** X7. No blanket approval: in a chat session the executors that change the
    system ([writeFile], [executeCommand]) are entered at most as many times
    as the user typed an affirmative line, counted over the lines the session
    has read. One yes never pays for two runs. *)
Theorem every_run_has_its_own_yes `{Platform} (initialMessage : option string) (w : World) :
  exists used evs,
    stdin w = used ++ stdin (snd (startChat initialMessage w)) /\
    trace (snd (startChat initialMessage w)) = trace w ++ evs /\
    length (List.filter isRun evs) <= length (List.filter isYes used).
Proof. apply (accounted_startChat initialMessage w). Qed.

(** ** One request per input *)

Lemma noRequest_tool {A} (m : M A) : Keeps toolStep m -> Keeps noRequest m.
Proof. apply keeps_weaken, toolStep_noRequest. Qed.

Lemma noRequest_calm {A} (m : M A) : Keeps calm m -> Keeps noRequest m.
Proof. intros Hm. by apply noRequest_tool, toolStep_calm. Qed.

Lemma noRequest_push t : Keeps noRequest (push t).
Proof. intros w. by exists [Push t]. Qed.

Lemma noRequest_awaitResponse : Keeps noRequest awaitResponse.
Proof.
  intros w. unfold awaitResponse. exists []. destruct (remote w); simpl; by rewrite app_nil_r.
Qed.

Lemma noRequest_dispatchAll `{Platform} toolCalls : Keeps noRequest (dispatchAll toolCalls).
Proof.
  induction toolCalls as [|toolCall rest IH]; cbn [dispatchAll]; [frame |].
  apply keeps_bind; [apply _ | apply noRequest_calm; frame |]. intros v.
  apply keeps_bind; [apply _ | apply noRequest_calm; frame |]. intros _.
  apply keeps_bind; [apply _ | apply noRequest_tool, toolStep_executeTool |]. intros r.
  apply keeps_bind; [apply _ | apply noRequest_calm; frame |]. intros _.
  apply keeps_bind; [apply _ | apply noRequest_push |]. intros _.
  apply IH.
Qed.

Lemma noRequest_response `{Platform} :
  Keeps noRequest
    (tryCatch
       (result <- awaitResponse ;;
        match result with
        | Rejected e => throw e
        | Streamed chunks failure =>
            log [Str (Js.nl +:+ "Assistant: ")] ;;
            r <- consumeStream chunks failure "" [] ;;
            let (aiResponse, toolCalls) := r in
            log [Str Js.nl] ;;
            push (mkTurn model (Plain aiResponse)) ;;
            (if (0 <? length toolCalls)%nat
             then (log [Str (Js.nl +:+ "Executing tool calls...")] ;;
                   dispatchAll toolCalls)
             else ret tt) ;;
            ret true
        end)
       (fun error => logError [Str "Error:"; Thrown error] ;; ret true)).
Proof.
  apply keeps_tryCatch; [apply _ | | intros e; apply noRequest_calm; frame].
  apply keeps_bind; [apply _ | apply noRequest_awaitResponse |].
  intros [e|chunks failure]; [frame |].
  apply keeps_bind; [apply _ | apply noRequest_calm; frame |]. intros _.
  apply keeps_bind; [apply _ | apply noRequest_calm; frame |]. intros [aiResponse toolCalls].
  apply keeps_bind; [apply _ | apply noRequest_calm; frame |]. intros _.
  apply keeps_bind; [apply _ | apply noRequest_push |]. intros _.
  apply keeps_bind; [apply _ | | intros _; frame].
  apply keeps_if; [| frame].
  apply keeps_bind; [apply _ | apply noRequest_calm; frame |]. intros _.
  apply noRequest_dispatchAll.
Qed.

(** The state in which [processUserInput] waits for the response: the user
    turn is appended and the request is sent. *)
Lemma processUserInput_waits `{Platform} userInput w :
  Js.toLowerCase userInput <> "exit" ->
  processUserInput userInput w =
  tryCatch
    (result <- awaitResponse ;;
     match result with
     | Rejected e => throw e
     | Streamed chunks failure =>
         log [Str (Js.nl +:+ "Assistant: ")] ;;
         r <- consumeStream chunks failure "" [] ;;
         let (aiResponse, toolCalls) := r in
         log [Str Js.nl] ;;
         push (mkTurn model (Plain aiResponse)) ;;
         (if (0 <? length toolCalls)%nat
          then (log [Str (Js.nl +:+ "Executing tool calls...")] ;;
                dispatchAll toolCalls)
          else ret tt) ;;
         ret true
     end)
    (fun error => logError [Str "Error:"; Thrown error] ;; ret true)
    (mkWorld (disk w) (stdin w) (remote w)
       (chatHistory w ++ [mkTurn user (Plain userInput)])
       (trace w ++ [Push (mkTurn user (Plain userInput));
                    Request (chatHistory w ++ [mkTurn user (Plain userInput)])])).
Proof.
  intros Hgo. unfold processUserInput.
  destruct (String.eqb_spec (Js.toLowerCase userInput) "exit") as [|_]; [done |].
  unfold bind at 1. unfold push, bind at 1 2.
  cbn [emit getHistory setHistory fst snd chatHistory trace disk stdin remote].
  unfold tryCatch, bind at 1. cbn [getHistory]. unfold generateContentStream, bind at 1 2.
  cbn [emit chatHistory trace disk stdin remote]. by rewrite <- app_assoc.
Qed.

(** X8. Nothing is retried and nothing is sent twice: an input other than
    [exit] makes exactly one request to the remote model, carrying the
    history with the new user turn, however the response and the tool calls
    turn out; [exit] makes none. *)
Theorem one_request_per_input `{Platform} (userInput : string) (w : World) :
  exists evs,
    trace (snd (processUserInput userInput w)) = trace w ++ evs /\
    List.filter isRequest evs =
      if String.eqb (Js.toLowerCase userInput) "exit" then []
      else [Request (chatHistory w ++ [mkTurn user (Plain userInput)])].
Proof.
  destruct (String.eqb_spec (Js.toLowerCase userInput) "exit") as [Hexit|Hgo].
  - rewrite processUserInput_exit by done. by exists [Log [Str "Goodbye!"]; Close].
  - rewrite processUserInput_waits by done.
    destruct (noRequest_response
                (mkWorld (disk w) (stdin w) (remote w)
                   (chatHistory w ++ [mkTurn user (Plain userInput)])
                   (trace w ++ [Push (mkTurn user (Plain userInput));
                                Request (chatHistory w ++ [mkTurn user (Plain userInput)])])))
      as (evs & Ht & Hq).
    exists (Push (mkTurn user (Plain userInput))
            :: Request (chatHistory w ++ [mkTurn user (Plain userInput)]) :: evs).
    split; [rewrite Ht; simpl; by rewrite <- app_assoc |]. simpl. by rewrite Hq.
Qed.

(** ** What a round of the loop leaves *)

Lemma append_assoc3 (a b c : string) : (a +:+ b) +:+ c = a +:+ (b +:+ c).
Proof.
  induction a as [|ch a IH]; [done |].
  change (String ch ((a +:+ b) +:+ c) = String ch (a +:+ (b +:+ c))). by rewrite IH.
Qed.

Lemma append_empty (a : string) : a +:+ "" = a.
Proof.
  induction a as [|ch a IH]; [done |].
  change (String ch (a +:+ "") = String ch a). by rewrite IH.
Qed.

Lemma after_after w evs evs' : after (after w evs) evs' = after w (evs ++ evs').
Proof. unfold after. simpl. by rewrite app_assoc. Qed.

Lemma after_nil w : after w [] = w.
Proof. destruct w. unfold after. simpl. by rewrite app_nil_r. Qed.

(** The stream loop, in one step: the text is the texts of the chunks put
    together, the batch is the last non-empty one, every non-empty text was
    echoed once and in order, and a stream that fails throws after that. *)
Lemma consumeStream_run (chunks : list Chunk) (failure : option JsError) :
  forall aiResponse toolCalls w,
    consumeStream chunks failure aiResponse toolCalls w =
    (match failure with
     | Some e => Throw e
     | None => Ret (aiResponse +:+ fullText chunks, latestNonEmpty toolCalls (batches chunks))
     end,
     after w (echoes chunks)).
Proof.
  induction chunks as [|chunk rest IH]; intros aiResponse toolCalls w.
  - cbn [consumeStream fullText echoes batches]. rewrite after_nil, append_empty.
    by destruct failure.
  - cbn [consumeStream fullText echoes batches]. unfold bind at 1.
    destruct (Js.truthy (text chunk)) eqn:Htext.
    + unfold bind, stdoutWrite, emit, ret. cbn [fst snd].
      rewrite IH. unfold after. simpl. rewrite <- app_assoc, append_assoc3. simpl.
      destruct (functionCalls chunk) as [[|call batch]|]; try done.
      cbn [length Nat.ltb Nat.leb]. unfold latestNonEmpty. cbn [List.filter nonEmpty].
      by rewrite last_cons_default.
    + unfold ret. rewrite IH.
      assert (text chunk = "") as ->.
      { unfold Js.truthy in Htext. apply negb_false_iff in Htext. by apply String.eqb_eq. }
      simpl.
      destruct (functionCalls chunk) as [[|call batch]|]; try done.
      cbn [length Nat.ltb Nat.leb]. unfold latestNonEmpty. cbn [List.filter nonEmpty].
      by rewrite last_cons_default.
Qed.

Lemma awaitResponse_run r rest w :
  remote w = r :: rest ->
  awaitResponse w = (Ret r, mkWorld (disk w) (stdin w) rest (chatHistory w) (trace w)).
Proof. intros Hr. unfold awaitResponse. by rewrite Hr. Qed.

(** X9. A failure of the remote model does not end the session and leaves no
    half answer in the conversation. When the request is rejected, or the
    stream fails after some chunks, [processUserInput] logs the error and
    answers [true]; the history holds the new user turn and no [model] turn,
    although the text of the chunks received was already echoed; the disk and
    the input are untouched. *)
Theorem remote_failure_is_not_fatal `{Platform} (userInput : string) (w : World)
    (rest : list Response) :
  Js.toLowerCase userInput <> "exit" ->
  (forall e,
     remote w = Rejected e :: rest ->
     processUserInput userInput w =
     (Ret true,
      mkWorld (disk w) (stdin w) rest (chatHistory w ++ [mkTurn user (Plain userInput)])
        (trace w ++ [Push (mkTurn user (Plain userInput));
                     Request (chatHistory w ++ [mkTurn user (Plain userInput)]);
                     LogError [Str "Error:"; Thrown e]]))) /\
  (forall chunks e,
     remote w = Streamed chunks (Some e) :: rest ->
     processUserInput userInput w =
     (Ret true,
      mkWorld (disk w) (stdin w) rest (chatHistory w ++ [mkTurn user (Plain userInput)])
        (trace w ++ [Push (mkTurn user (Plain userInput));
                     Request (chatHistory w ++ [mkTurn user (Plain userInput)]);
                     Log [Str (Js.nl +:+ "Assistant: ")]]
                 ++ echoes chunks ++ [LogError [Str "Error:"; Thrown e]]))).
Proof.
  intros Hgo. split.
  - intros e Hr. rewrite processUserInput_waits by done.
    unfold tryCatch, bind at 1. erewrite awaitResponse_run by exact Hr.
    unfold throw, bind, logError, emit, ret. simpl. by rewrite <- app_assoc.
  - intros chunks e Hr. rewrite processUserInput_waits by done.
    unfold tryCatch, bind at 1. erewrite awaitResponse_run by exact Hr.
    unfold bind at 1. cbn [log emit]. unfold bind at 1. rewrite consumeStream_run.
    unfold bind, logError, emit, ret, after. simpl. by rewrite <- !app_assoc.
Qed.

Lemma remote_failure_is_not_fatal_witness :
  let w := mkWorld ∅ ["later"] [Rejected (mkError "Error" "fetch failed")]
             [mkTurn system (Plain systemPrompt)] [] in
  @processUserInput posix "hello" w =
  (Ret true,
   mkWorld (disk w) (stdin w) [] (chatHistory w ++ [mkTurn user (Plain "hello")])
     (trace w ++ [Push (mkTurn user (Plain "hello"));
                  Request (chatHistory w ++ [mkTurn user (Plain "hello")]);
                  LogError [Str "Error:"; Thrown (mkError "Error" "fetch failed")]])).
Proof.
  intros w.
  apply (proj1 (@remote_failure_is_not_fatal posix "hello" w [] ltac:(discriminate))).
  reflexivity.
Defined.

(** X10. A round without tool calls: when the stream completes and none of
    its chunks carried a non-empty batch, [processUserInput] answers [true]
    with exactly two turns added, the user's and one [model] turn whose text
    is the texts of all chunks put together; every non-empty text was echoed
    once, in order; nothing was dispatched, no line was read and the disk is
    as before. *)
Theorem round_without_tools `{Platform} (userInput : string) (w : World)
    (chunks : list Chunk) (rest : list Response) :
  Js.toLowerCase userInput <> "exit" ->
  remote w = Streamed chunks None :: rest ->
  latestNonEmpty [] (batches chunks) = [] ->
  processUserInput userInput w =
  (Ret true,
   mkWorld (disk w) (stdin w) rest
     (chatHistory w ++ [mkTurn user (Plain userInput); mkTurn model (Plain (fullText chunks))])
     (trace w ++ [Push (mkTurn user (Plain userInput));
                  Request (chatHistory w ++ [mkTurn user (Plain userInput)]);
                  Log [Str (Js.nl +:+ "Assistant: ")]]
              ++ echoes chunks
              ++ [Log [Str Js.nl]; Push (mkTurn model (Plain (fullText chunks)))])).
Proof.
  intros Hgo Hr Hnone. rewrite processUserInput_waits by done.
  unfold tryCatch, bind at 1. erewrite awaitResponse_run by exact Hr.
  unfold bind at 1. cbn [log emit]. unfold bind at 1. rewrite consumeStream_run, Hnone.
  unfold bind, log, push, emit, getHistory, setHistory, ret, after. simpl.
  by rewrite <- !app_assoc.
Qed.

Lemma round_without_tools_witness :
  let chunks := [mkChunk "Hel" None; mkChunk "" (Some []); mkChunk "lo" None] in
  let w := mkWorld ∅ ["later"] [Streamed chunks None] [mkTurn system (Plain systemPrompt)] [] in
  @processUserInput posix "hi" w =
  (Ret true,
   mkWorld (disk w) (stdin w) []
     (chatHistory w ++ [mkTurn user (Plain "hi"); mkTurn model (Plain (fullText chunks))])
     (trace w ++ [Push (mkTurn user (Plain "hi"));
                  Request (chatHistory w ++ [mkTurn user (Plain "hi")]);
                  Log [Str (Js.nl +:+ "Assistant: ")]]
              ++ echoes chunks
              ++ [Log [Str Js.nl]; Push (mkTurn model (Plain (fullText chunks)))])).
Proof.
  intros chunks w.
  apply (@round_without_tools posix "hi" w chunks []); [discriminate | reflexivity | reflexivity].
Defined.

(** ** How a round and a session end *)

Lemma answers_ret b : Answers b (ret b).
Proof. by intros w r w' [= <- _]. Qed.

Lemma answers_throw b e : Answers b (throw e).
Proof. by intros w r w'. Qed.

Lemma answers_bind {A} b (m : M A) (k : A -> M bool) :
  (forall a, Answers b (k a)) -> Answers b (bind m k).
Proof.
  intros Hk w r w'. unfold bind. destruct (m w) as [[a|e|] w1]; try done. apply Hk.
Qed.

Lemma answers_response `{Platform} :
  Answers true
    (tryCatch
       (result <- awaitResponse ;;
        match result with
        | Rejected e => throw e
        | Streamed chunks failure =>
            log [Str (Js.nl +:+ "Assistant: ")] ;;
            r <- consumeStream chunks failure "" [] ;;
            let (aiResponse, toolCalls) := r in
            log [Str Js.nl] ;;
            push (mkTurn model (Plain aiResponse)) ;;
            (if (0 <? length toolCalls)%nat
             then (log [Str (Js.nl +:+ "Executing tool calls...")] ;;
                   dispatchAll toolCalls)
             else ret tt) ;;
            ret true
        end)
       (fun error => logError [Str "Error:"; Thrown error] ;; ret true)).
Proof.
  intros w r w'. unfold tryCatch.
  match goal with |- context [match ?body w with _ => _ end] => set (m := body) end.
  assert (Answers true m) as Hm.
  { subst m. apply answers_bind. intros [e|chunks failure]; [apply answers_throw |].
    apply answers_bind. intros _. apply answers_bind. intros [aiResponse toolCalls].
    repeat (apply answers_bind; intros ?). apply answers_ret. }
  destruct (m w) as [[b|e|] w1] eqn:Hrun; [| | done].
  - intros [= <- <-]. by eapply Hm.
  - by intros [= <- _].
Qed.

Lemma response_no_throw `{Platform} w e w' :
  tryCatch
    (result <- awaitResponse ;;
     match result with
     | Rejected e => throw e
     | Streamed chunks failure =>
         log [Str (Js.nl +:+ "Assistant: ")] ;;
         r <- consumeStream chunks failure "" [] ;;
         let (aiResponse, toolCalls) := r in
         log [Str Js.nl] ;;
         push (mkTurn model (Plain aiResponse)) ;;
         (if (0 <? length toolCalls)%nat
          then (log [Str (Js.nl +:+ "Executing tool calls...")] ;;
                dispatchAll toolCalls)
          else ret tt) ;;
         ret true
     end)
    (fun error => logError [Str "Error:"; Thrown error] ;; ret true) w <> (Throw e, w').
Proof.
  unfold tryCatch.
  match goal with |- context [match ?body w with _ => _ end] => destruct (body w) as [[b|e1|] w1] end;
    try done.
Qed.

Lemma processUserInput_false `{Platform} userInput w w' :
  processUserInput userInput w = (Ret false, w') ->
  Js.toLowerCase userInput = "exit" /\ w' = after w [Log [Str "Goodbye!"]; Close].
Proof.
  intros Hrun. destruct (String.eqb_spec (Js.toLowerCase userInput) "exit") as [Hexit|Hgo].
  - rewrite processUserInput_exit in Hrun by done. by simplify_eq.
  - rewrite processUserInput_waits in Hrun by done. by apply answers_response in Hrun.
Qed.

(** X11. [processUserInput] contains every error of a round: it never throws,
    whatever the remote model sends and whatever the tools do, and it answers
    [false] -- the signal to stop asking -- exactly when the input is [exit]
    once lowercased. *)
Theorem round_never_throws `{Platform} (userInput : string) (w : World) :
  (forall e w', processUserInput userInput w <> (Throw e, w')) /\
  (fst (processUserInput userInput w) = Ret false <-> Js.toLowerCase userInput = "exit").
Proof.
  split.
  - intros e w'. destruct (String.eqb_spec (Js.toLowerCase userInput) "exit") as [Hexit|Hgo].
    + by rewrite processUserInput_exit.
    + rewrite processUserInput_waits by done. apply response_no_throw.
  - split.
    + destruct (processUserInput userInput w) as [o w'] eqn:Hrun. simpl. intros ->.
      by apply processUserInput_false in Hrun as [? _].
    + intros Hexit. by rewrite processUserInput_exit.
Qed.




(** X13. An initial message that is [exit] ends the program at once: the
    banner, the echo of the message and the farewell are printed, the input
    is closed, and the session returns without a prompt, a request or a line
    read. *)
Theorem initial_exit_never_prompts `{Platform} (m : string) (w : World) :
  Js.toLowerCase m = "exit" ->
  startChat (Some m) w =
  (Ret tt,
   mkWorld (disk w) (stdin w) (remote w) [mkTurn system (Plain systemPrompt)]
     (trace w ++ [Log [Str ("Coding Assistant initialized. Type " +:+ Js.dq +:+ "exit"
                            +:+ Js.dq +:+ " to quit.")];
                  Log [Str (Js.nl +:+ "You: " +:+ m)];
                  Log [Str "Goodbye!"]; Close])).
Proof.
  intros Hexit.
  assert (Js.truthy m = true) as Htruthy by (by destruct m).
  unfold startChat. rewrite Htruthy. unfold bind, log, emit, setHistory. cbn [fst snd].
  rewrite processUserInput_exit by done. unfold after, ret. simpl.
  by rewrite <- !app_assoc.
Qed.

Lemma initial_exit_never_prompts_witness :
  @startChat posix (Some "EXIT") (boot ["unread"] []) =
  (Ret tt,
   mkWorld (disk (boot ["unread"] [])) (stdin (boot ["unread"] [])) (remote (boot ["unread"] []))
     [mkTurn system (Plain systemPrompt)]
     (trace (boot ["unread"] [])
        ++ [Log [Str ("Coding Assistant initialized. Type " +:+ Js.dq +:+ "exit"
                      +:+ Js.dq +:+ " to quit.")];
            Log [Str (Js.nl +:+ "You: " +:+ "EXIT")];
            Log [Str "Goodbye!"]; Close])).
Proof. apply (@initial_exit_never_prompts posix "EXIT" (boot ["unread"] [])). reflexivity. Defined.

(** ** Edge cases of the gates and of the dispatch loop *)

(** X14. A write whose content cannot be previewed is refused before the
    user is asked: when [args.content] is missing or is neither a string nor
    an array, the dispatcher returns the error payload
    [Failed to execute tool writeFile: ...] after the first preview line; no
    prompt is shown, no line is read, [writeFile] is not entered and the disk
    is as before. *)
Theorem unreadable_content_is_refused_unasked `{Platform} (args p content : JValue)
    (shown : string) (w : World) :
  getProp args "path" = inr p ->
  toString p = inr shown ->
  getProp args "content" = inr content ->
  match content with
  | JStr _ | JArr _ => False
  | _ => True
  end ->
  exists e,
    contentPreview content = inl e /\
    executeTool "writeFile" args w =
    (Ret (Failed ("Failed to execute tool writeFile: " +:+ message e)),
     after w [Dispatch "writeFile" args;
              Log [Str (Js.nl +:+ "I want to write to file: " +:+ shown)]]).
Proof.
  intros Hp Hshown Hc Hbad.
  assert (exists e, contentPreview content = inl e) as [e He].
  { destruct content; simpl; try done; eauto. }
  exists e. split; [done |].
  rewrite (executeTool_known
             (mkTool "writeFile" "Write content to a file (requires user confirmation)"
                confirmWriteFile)) by (unfold tools; set_solver).
  cbn [execute tool_name]. unfold tryCatch, confirmWriteFile.
  unfold bind at 1. rewrite Hp. cbn [lift ret]. unfold bind at 1. rewrite Hshown.
  cbn [lift ret]. unfold bind at 1. cbn [log emit]. unfold bind at 1. rewrite Hc.
  cbn [lift ret]. unfold bind at 1. rewrite He. cbn [lift throw].
  unfold ret, dispatched, after. simpl. by rewrite <- app_assoc.
Qed.

Lemma unreadable_content_is_refused_unasked_witness :
  exists e,
    contentPreview (JNum "42") = inl e /\
    @executeTool posix "writeFile" (JObj [("path", JStr "a.txt"); ("content", JNum "42")])
      (boot ["yes"] []) =
    (Ret (Failed ("Failed to execute tool writeFile: " +:+ message e)),
     after (boot ["yes"] [])
       [Dispatch "writeFile" (JObj [("path", JStr "a.txt"); ("content", JNum "42")]);
        Log [Str (Js.nl +:+ "I want to write to file: " +:+ "a.txt")]]).
Proof.
  apply (@unreadable_content_is_refused_unasked posix
           (JObj [("path", JStr "a.txt"); ("content", JNum "42")]) (JStr "a.txt") (JNum "42")
           "a.txt" (boot ["yes"] [])); reflexivity || exact I.
Defined.




(** X16. An approved command is run once, and its outcome is the result: with
    an affirmative answer, a dispatch of [executeCommand] with a string
    command makes exactly one [execSync] call, with that command; it returns
    the output of the shell, or [Command execution failed: ] followed by the
    message of the shell's error, and the disk is what the shell left. *)
Theorem approved_command_runs_once `{Platform} (command answer : string)
    (lines : list string) (w : World) :
  stdin w = answer :: lines ->
  affirmative answer ->
  executeTool "executeCommand" (JObj [("command", JStr command)]) w =
  (Ret (match fst (shell command (disk w)) with
        | inr output => Output output
        | inl e => Failed ("Command execution failed: " +:+ message e)
        end),
   mkWorld (snd (shell command (disk w))) lines (remote w) (chatHistory w)
     (trace w ++ [Dispatch "executeCommand" (JObj [("command", JStr command)]);
                  Log [Str (Js.nl +:+ "I want to execute command: " +:+ command)];
                  Question confirmQuery;
                  Enter "executeCommand" (JObj [("command", JStr command)]);
                  Sys (ExecSync command)])).
Proof.
  intros Hin Hyes. apply affirmative_test in Hyes.
  rewrite (executeTool_known
             (mkTool "executeCommand" "Execute shell commands (requires user confirmation)"
                confirmExecuteCommand)) by (unfold tools; set_solver).
  cbn [execute tool_name]. unfold tryCatch. rewrite confirmExecuteCommand_gated.
  unfold gated. unfold bind at 1.
  assert (forall w0, previewExecuteCommand (JObj [("command", JStr command)]) w0
                     = (Ret tt, after w0 [Log [Str (Js.nl +:+ "I want to execute command: "
                                                    +:+ command)]])) as -> by done.
  unfold bind at 1. rewrite question_run. cbn [dispatched emit snd stdin after].
  rewrite Hin, Hyes.
  unfold unawaited, executeCommand, executeCommand_try, execSync, tryCatch, bind,
    emit, getDisk, setDisk, lift, ret, throw, typing, after.
  cbn -[append shell].
  destruct (shell command (disk w)) as [[e|output] d']; cbn -[append];
    by rewrite <- !app_assoc.
Qed.

Lemma approved_command_runs_once_witness :
  let w := boot ["Y"; "later"] [] in
  @executeTool posix "executeCommand" (JObj [("command", JStr "ls")]) w =
  (Ret (match fst (@shell posix "ls" (disk w)) with
        | inr output => Output output
        | inl e => Failed ("Command execution failed: " +:+ message e)
        end),
   mkWorld (snd (@shell posix "ls" (disk w))) ["later"] (remote w) (chatHistory w)
     (trace w ++ [Dispatch "executeCommand" (JObj [("command", JStr "ls")]);
                  Log [Str (Js.nl +:+ "I want to execute command: " +:+ "ls")];
                  Question confirmQuery;
                  Enter "executeCommand" (JObj [("command", JStr "ls")]);
                  Sys (ExecSync "ls")])).
Proof.
  intros w.
  apply (@approved_command_runs_once posix "ls" "Y" ["later"] w); [reflexivity |].
  right. reflexivity.
Defined.

(** ** The whole program *)





Lemma writeFile_overwrites `{Platform} (path content old : string) (w : World) :
  disk w !! path_resolve path = Some (File old) ->
  disk w !! path_dirname (path_resolve path) = Some Directory ->
  disk (snd (writeFile (JObj [("path", JStr path); ("content", JStr content)]) w))
  = <[path_resolve path := File content]> (disk w).
Proof.
  intros Hfile Hdir.
  unfold writeFile, writeFile_try, fs_ensureDir, fs_writeFile, resolve, getDisk, setDisk,
    emit, lift, ret, throw, tryCatch, bind.
  cbn -[lookup insert]. rewrite Hdir. cbn -[lookup insert]. rewrite Hfile. done.
Qed.

(** X18. The direct creation empties a file that exists, unasked: when the
    name given to [create ...] resolves to a regular file in an existing
    directory, the program replaces its content by the empty string, without
    a prompt and without reading a line, and leaves every other entry of the
    disk alone. *)
Theorem create_truncates_existing_file `{Platform} (argv : list string) (old : string)
    (w : World) :
  let filename := Js.trim (Js.replace (Js.join " " argv) "create " "") in
  Js.startsWith (Js.join " " argv) "create " = true ->
  Js.includes (Js.join " " argv) ".txt" = true ->
  disk w !! path_resolve filename = Some (File old) ->
  disk w !! path_dirname (path_resolve filename) = Some Directory ->
  disk (snd (cli argv w)) = <[path_resolve filename := File ""]> (disk w) /\
  stdin (snd (cli argv w)) = stdin w.
Proof.
  intros filename Hstart Htxt Hfile Hdir.
  destruct (cli_create argv w Hstart Htxt) as (result & w1 & evs & Hrun & _ & _ & Hs & ->).
  fold filename in Hrun. simpl. split; [| done].
  pose proof (writeFile_overwrites filename "" old
                (after w [Log [Str ("Creating file: " +:+ filename)]]) Hfile Hdir) as Hd.
  by rewrite Hrun in Hd.
Qed.

Lemma create_truncates_existing_file_witness :
  let w := mkWorld {[ "/work" := Directory; "/work/notes.txt" := File "keep me" ]}
             ["no"] [] [] [] in
  disk (snd (@cli posix ["create"; "notes.txt"] w))
  = <[@path_resolve posix
        (Js.trim (Js.replace (Js.join " " ["create"; "notes.txt"]) "create " "")) := File ""]>
      (disk w) /\
  stdin (snd (@cli posix ["create"; "notes.txt"] w)) = stdin w.
Proof.
  intros w.
  apply (@create_truncates_existing_file posix ["create"; "notes.txt"] "keep me" w);
    by vm_compute.
Defined.

#[global] Instance sameRemote_preorder : PreOrder sameRemote.
Proof. split; [done |]. intros w1 w2 w3 H1 H2. unfold sameRemote in *. congruence. Qed.




